(** * Event pipeline of the activity logger extension

    Shallow embedding of the background worker (event coordinator and
    workflow classifier), the offscreen correlation router, the bounded
    worker caches and the content-script screenshot throttle.

    JavaScript values are modelled as follows: an optional property or a
    value that may be [null]/[undefined] is an [option]; strings are
    [String.string]; [Date.now()] is an explicit [now : Z] argument; a
    JavaScript [Map] is an association list kept in insertion order; the
    router's pending table is a [gmap]. Every asynchronous handler is run
    to completion before the next message is handled. *)

From Stdlib Require Import ZArith Bool List Lia.
From stdpp Require Import base gmap strings.
Import ListNotations.

Open Scope Z_scope.

(** JavaScript truthiness of an optional string: [undefined], [null] and
    the empty string are falsy. *)
Definition truthy (o : option string) : bool :=
  match o with
  | Some s => negb (String.eqb s "")
  | None => false
  end.

(** [a || b] on optional strings. *)
Definition js_or (a b : option string) : option string :=
  if truthy a then a else b.

(** [arr.includes(x)] on an array of strings. *)
Definition includes (arr : list string) (x : string) : bool :=
  existsb (String.eqb x) arr.

(** [arr.includes(x)] where [x] may be [undefined]. *)
Definition includes_opt (arr : list string) (x : option string) : bool :=
  match x with
  | Some s => includes arr s
  | None => false
  end.

(** The double quote character, used by template strings. *)
Definition dq : string := String (Ascii.ascii_of_nat 34) EmptyString.

(* ------------------------------------------------------------------ *)
(** ** Background worker: event coordinator and workflow classifier *)

Module Background.

Definition MAX_BATCH_SIZE : nat := 10.

(** [evt.fieldChange]: [{field, from, to}]. *)
Record field_change := mkFieldChange {
  fc_field : string;
  fc_from : string;
  fc_to : string
}.

(** An event object as received by [handleEvent]. *)
Record evt := mkEvt {
  etype : string;                    (* evt.type *)
  elementType : option string;       (* evt.elementType *)
  identifier : option string;        (* evt.identifier *)
  fieldLabel : option string;        (* evt.fieldDetails?.fieldLabel *)
  description : option string;       (* evt.description *)
  actionType : option string;        (* evt.actionType *)
  fieldChange : option field_change; (* evt.fieldChange *)
  label : option string;             (* evt.label *)
  imgBase64 : option string          (* evt.imgBase64 *)
}.

Definition set_label (l : option string) (e : evt) : evt :=
  mkEvt (etype e) (elementType e) (identifier e) (fieldLabel e)
    (description e) (actionType e) (fieldChange e) l (imgBase64 e).

Definition set_imgBase64 (i : option string) (e : evt) : evt :=
  mkEvt (etype e) (elementType e) (identifier e) (fieldLabel e)
    (description e) (actionType e) (fieldChange e) (label e) i.

(** The object built by the [screenshot] message handler (line 208). *)
Definition screenshot_evt (img : string) : evt :=
  mkEvt "screenshot" None None None None None None None (Some img).

(** An event of the content script carrying only [type] and [elementType]. *)
Definition plain_evt (t k : string) : evt :=
  mkEvt t (Some k) None None None None None None None.

(** The label switch at the top of [handleEvent]. [None] is the
    [TypeError] thrown when a [field_change] event has no [fieldChange]. *)
Definition label_event (e : evt) : option evt :=
  match actionType e with
  | Some a =>
      if truthy (Some a) then
        if String.eqb a "field_change" then
          match fieldChange e with
          | Some fc =>
              Some (set_label
                (Some ("Changed " +:+ fc_field fc +:+ " from " +:+ dq +:+ fc_from fc
                       +:+ dq +:+ " to " +:+ dq +:+ fc_to fc +:+ dq)) e)
          | None => None
          end
        else if includes ["checkbox_change"; "radio_selection"; "button_click";
                          "field_input"] a
        then Some (set_label (description e) e)
        else if truthy (description e) then Some (set_label (description e) e)
        else Some e
      else Some e
  | None => Some e
  end.

(** The event as queued by [handleEvent] when labelling succeeds. *)
Definition labelled (e : evt) : evt :=
  match label_event e with Some e' => e' | None => e end.

(** Keys of [WORKFLOW_PATTERNS], in [Object.entries] order. *)
Inductive wf_type := FIELD_UPDATE | FORM_SUBMISSION | NAVIGATION.

Record pattern := mkPattern {
  pname : string;
  startTriggers : list string;
  endTriggers : list string;
  targetTypes : list string
}.

Definition WORKFLOW_PATTERNS (t : wf_type) : pattern :=
  match t with
  | FIELD_UPDATE =>
      mkPattern "Field Update" ["select"; "click"] ["change"]
        ["select"; "input"; "textarea"]
  | FORM_SUBMISSION =>
      mkPattern "Form Submission" ["change"] ["submit"] ["form"]
  | NAVIGATION =>
      mkPattern "Navigation" ["click"] ["navigation"] ["a"; "button"]
  end.

Definition pattern_entries : list wf_type :=
  [FIELD_UPDATE; FORM_SUBMISSION; NAVIGATION].

(** [stepDetails] pushed on [currentWorkflow.steps]. *)
Record step := mkStep {
  action : string;
  timestamp : Z;
  details_type : string;
  details_elementType : option string;
  details_actionType : option string;
  details_fieldChange : option field_change
}.

Definition step_of (now : Z) (e : evt) : step :=
  mkStep (match js_or (description e) (Some (etype e)) with
          | Some s => s
          | None => etype e
          end)
    now (etype e) (elementType e) (actionType e) (fieldChange e).

(** [currentWorkflow]; [type: null] is [wtype = None]. *)
Record workflow := mkWorkflow {
  wtype : option wf_type;
  target : option string;
  steps : list step;
  startTime : option Z;
  lastEventTime : option Z
}.

Definition idle_workflow : workflow := mkWorkflow None None [] None None.

(** The object pushed on the queue by [finishWorkflow]. *)
Record wf_record := mkWfRecord {
  workflowType : wf_type;
  wf_target : option string;
  wf_steps : list step;
  wf_startTime : option Z;
  endTime : option Z;
  duration : Z;
  fieldChanges : list field_change
}.

(** A queue entry: a raw event or a [type: 'workflow'] record. *)
Inductive qitem :=
| Raw (e : evt)
| Workflow (w : wf_record).


(** [{...e, imgBase64: null}]. *)
Definition sanitize (it : qitem) : qitem :=
  match it with
  | Raw e => Raw (set_imgBase64 None e)
  | Workflow w => Workflow w
  end.

(** The object passed to [chrome.storage.local.set] by a flush. *)
Record store_write := mkWrite {
  log : string;
  events : list qitem
}.

(** The raw events of a queue, in order. *)
Definition raw_events (q : list qitem) : list evt :=
  flat_map (fun it => match it with Raw e => [e] | Workflow _ => [] end) q.

(** Coordinator state: [queue], [currentWorkflow], and the store writes
    attempted so far, each with whether the write succeeded. *)
Record state := mkState {
  queue : list qitem;
  currentWorkflow : workflow;
  writes : list (bool * store_write)
}.

Definition init_state : state := mkState [] idle_workflow [].

Definition set_queue (q : list qitem) (st : state) : state :=
  mkState q (currentWorkflow st) (writes st).

Definition set_workflow (w : workflow) (st : state) : state :=
  mkState (queue st) w (writes st).

Definition null0 (o : option Z) : Z :=
  match o with Some z => z | None => 0 end.

Definition finishWorkflow (st : state) : state :=
  let w := currentWorkflow st in
  match wtype w, steps w with
  | Some t, _ :: _ =>
      let fcs := flat_map (fun s => match details_fieldChange s with
                                    | Some fc => [fc]
                                    | None => []
                                    end) (steps w) in
      mkState
        (queue st ++ [Workflow (mkWfRecord t (target w) (steps w) (startTime w)
                        (lastEventTime w)
                        (null0 (lastEventTime w) - null0 (startTime w)) fcs)])
        idle_workflow (writes st)
  | _, _ => st
  end.

(** Whether [evt] satisfies the start condition of pattern [t]. *)
Definition starts (t : wf_type) (e : evt) : bool :=
  includes (startTriggers (WORKFLOW_PATTERNS t)) (etype e)
  && includes_opt (targetTypes (WORKFLOW_PATTERNS t)) (elementType e).

(** [currentWorkflow.type && now - currentWorkflow.lastEventTime > 5000]. *)
Definition too_old (now : Z) (w : workflow) : bool :=
  match wtype w with
  | Some _ => Z.gtb (now - null0 (lastEventTime w)) 5000
  | None => false
  end.

(** The [for ... of Object.entries(WORKFLOW_PATTERNS)] loop. *)
Fixpoint start_loop (now : Z) (e : evt) (ts : list wf_type) (st : state) : state :=
  match ts with
  | [] => st
  | t :: ts' =>
      let st' :=
        if starts t e then
          let st1 := if too_old now (currentWorkflow st) then finishWorkflow st
                     else st in
          match wtype (currentWorkflow st1) with
          | None =>
              set_workflow
                (mkWorkflow (Some t) (js_or (fieldLabel e) (identifier e)) []
                   (Some now) (Some now)) st1
          | Some _ => st1
          end
        else st in
      start_loop now e ts' st'
  end.

Definition updateWorkflow (now : Z) (e : evt) (st : state) : state :=
  let st1 := start_loop now e pattern_entries st in
  let w := currentWorkflow st1 in
  match wtype w with
  | Some t =>
      let st2 := set_workflow
                   (mkWorkflow (Some t) (target w) (steps w ++ [step_of now e])
                      (startTime w) (Some now)) st1 in
      if includes (endTriggers (WORKFLOW_PATTERNS t)) (etype e)
      then finishWorkflow st2 else st2
  | None => st1
  end.

Section Coordinator.

(** The summary string the Summarizer replies to [summariseBatch(queue)]
    (the reply is assumed to arrive). *)
Variable summary_reply : list qitem -> string.

(** The body of the [if] in [handleEvent]: finish the workflow, write
    [{log, events}], and clear the queue only when the write resolved
    ([ok = true]); a rejected write leaves [queue = []] unexecuted. *)
Definition flush_batch (ok : bool) (st : state) : state :=
  let st1 := finishWorkflow st in
  let w := mkWrite (summary_reply (queue st1)) (map sanitize (queue st1)) in
  mkState (if ok then [] else queue st1) (currentWorkflow st1)
    (writes st1 ++ [(ok, w)]).

Definition flush_due (q : list qitem) (e : evt) : bool :=
  (MAX_BATCH_SIZE <=? length q)%nat || String.eqb (etype e) "screenshot".

(** [handleEvent(evt)] with [Date.now() = now] and store outcome [ok]. *)
Definition handleEvent (ok : bool) (now : Z) (st : state) (e0 : evt) : state :=
  match label_event e0 with
  | None => st
  | Some e =>
      let st1 := updateWorkflow now e st in
      let st2 := set_queue (queue st1 ++ [Raw e]) st1 in
      if flush_due (queue st2) e then flush_batch ok st2 else st2
  end.

(** A sequence of [handleEvent] calls: (store outcome, time, event). *)
Fixpoint run (inputs : list (bool * Z * evt)) (st : state) : state :=
  match inputs with
  | [] => st
  | (ok, now, e) :: rest => run rest (handleEvent ok now st e)
  end.

End Coordinator.

End Background.

(* ------------------------------------------------------------------ *)
(** ** Background service worker: the flush with its awaits *)

(** [handleEvent] runs without waiting up to [await summariseBatch(queue)];
    the summary reply, the settling of [chrome.storage.local.set] and
    further events then arrive in any order. *)
Module BackgroundAsync.
Import Background.




Section Async.

Variable summary_reply : list qitem -> string.









End Async.



End BackgroundAsync.

(* ------------------------------------------------------------------ *)
(** ** Offscreen controller: the correlation router *)

Module Router.

(** A worker reply [data]; [rbody] stands for the rest of the object
    ([description], [summary] or [error]), forwarded unchanged. *)
Record reply := mkReply {
  rid : string;
  rbody : string
}.

(** The message sources of the router. A port is named by a number;
    [PortDisconnect p] is the other end of port [p] going away (the
    [port.onDisconnect] listener only logs). *)
Inductive msg :=
| PortMessage (p : nat) (cmd : string) (id : string)
| WorkerMessage (workerName : string) (data : reply)
| PortDisconnect (p : nat).

(** [pending], the requests forwarded to each worker, every
    [entry.port.postMessage(data)] performed, in order, and the ports
    that have been disconnected. *)
Record rstate := mkRState {
  pending : gmap string nat;
  forwarded : list (string * string);
  delivered : list (nat * reply);
  disconnected : list nat
}.

Definition rinit : rstate := mkRState ∅ [] [] [].

(** [routeResponse]. On a disconnected port [entry.port.postMessage(data)]
    throws, so nothing is delivered and [pending.delete(data.id)] is not
    reached. *)
Definition routeResponse (workerName : string) (data : reply) (st : rstate) : rstate :=
  match pending st !! rid data with
  | None => st
  | Some p =>
      if existsb (Nat.eqb p) (disconnected st) then st
      else
        mkRState (delete (rid data) (pending st)) (forwarded st)
          (delivered st ++ [(p, data)]) (disconnected st)
  end.

(** The [port.onMessage] listener installed by [onConnect]. *)
Definition onPortMessage (p : nat) (cmd id : string) (st : rstate) : rstate :=
  if String.eqb cmd "describe" then
    mkRState (<[id := p]> (pending st)) (forwarded st ++ [("vlm", id)]) (delivered st)
      (disconnected st)
  else if String.eqb cmd "summarise" then
    mkRState (<[id := p]> (pending st)) (forwarded st ++ [("sum", id)]) (delivered st)
      (disconnected st)
  else st.

Definition rstep (st : rstate) (m : msg) : rstate :=
  match m with
  | PortMessage p cmd id => onPortMessage p cmd id st
  | WorkerMessage w data => routeResponse w data st
  | PortDisconnect p =>
      mkRState (pending st) (forwarded st) (delivered st) (disconnected st ++ [p])
  end.

Definition rrun (ms : list msg) (st : rstate) : rstate := fold_left rstep ms st.

(** Requests registering id [x]. *)
Definition registers (x : string) (m : msg) : bool :=
  match m with
  | PortMessage _ cmd id =>
      String.eqb id x && (String.eqb cmd "describe" || String.eqb cmd "summarise")
  | WorkerMessage _ _ | PortDisconnect _ => false
  end.

(** Deliveries of a reply tagged [x]. *)
Definition deliveries_of (x : string) (d : list (nat * reply)) : nat :=
  length (List.filter (fun pr => String.eqb (rid (snd pr)) x) d).

End Router.

(* ------------------------------------------------------------------ *)
(** ** Worker caches: a JavaScript [Map] bounded by FIFO eviction *)

Module Cache.

Section JsMap.

Variable V : Type.

(** A [Map], as its entries in insertion order. *)
Definition jsmap := list (string * V).

Fixpoint map_get (k : string) (m : jsmap) : option V :=
  match m with
  | [] => None
  | (k', v) :: m' => if String.eqb k k' then Some v else map_get k m'
  end.

(** [m.set(k, v)]: an existing key keeps its position. *)
Fixpoint map_set (k : string) (v : V) (m : jsmap) : jsmap :=
  match m with
  | [] => [(k, v)]
  | (k', v') :: m' =>
      if String.eqb k k' then (k', v) :: m' else (k', v') :: map_set k v m'
  end.

Fixpoint map_delete (k : string) (m : jsmap) : jsmap :=
  match m with
  | [] => []
  | (k', v') :: m' => if String.eqb k k' then m' else (k', v') :: map_delete k m'
  end.

(** [cache.set(key, response); if (cache.size > K) cache.delete(cache.keys().next().value)]. *)
Definition cache_set (K : nat) (k : string) (v : V) (m : jsmap) : jsmap :=
  let m' := map_set k v m in
  if (K <? length m')%nat then
    match m' with
    | (k0, _) :: _ => map_delete k0 m'
    | [] => m'
    end
  else m'.

(** Cache operations: [has]/[get] do not modify a [Map]. *)
Inductive op :=
| CacheGet (k : string)
| CacheSet (k : string) (v : V).

Definition cache_step (K : nat) (m : jsmap) (o : op) : jsmap :=
  match o with
  | CacheGet _ => m
  | CacheSet k v => cache_set K k v m
  end.

Definition cache_run (K : nat) (os : list op) (m : jsmap) : jsmap :=
  fold_left (cache_step K) os m.

(** Keys written by a trace, in order. *)
Definition set_keys (os : list op) : list string :=
  flat_map (fun o => match o with CacheSet k _ => [k] | CacheGet _ => [] end) os.

End JsMap.

Arguments map_get {V}. Arguments map_set {V}. Arguments map_delete {V}.
Arguments cache_set {V}. Arguments CacheGet {V}. Arguments CacheSet {V}.
Arguments cache_step {V}. Arguments cache_run {V}. Arguments set_keys {V}.

(** [CONSTANTS.MAX_CACHE_SIZE] of the summarizer worker. *)
Definition MAX_CACHE_SIZE : nat := 50.

End Cache.

(* ------------------------------------------------------------------ *)
(** ** Content script: the screenshot throttle *)

Module Throttle.

Definition SCREENSHOT_INTERVAL : Z := 1000.
Definition MIN_SCREENSHOT_INTERVAL : Z := 2000.

(** [lastScreenshotTime], [lastDOMHash], every
    [captureScreenshot(trigger)] call performed, with its time, and the
    tick times of the [setInterval] callbacks still waiting on
    [await captureScreenshot('periodic')]. *)
Record tstate := mkTState {
  lastScreenshotTime : Z;
  lastDOMHash : string;
  captures : list (Z * string);
  inflight : list Z
}.

(** [canTakeScreenshot()]. *)
Definition canTakeScreenshot (now : Z) (st : tstate) : bool :=
  Z.geb (now - lastScreenshotTime st) MIN_SCREENSHOT_INTERVAL.

(** The debounced callback of [checkAndTakeScreenshot(reason)], fired at
    [now] with [getPageContentHash() = currentHash]: [captureScreenshot]
    is called without [await], then both variables are set. *)
Definition debounce_fire (reason : string) (now : Z) (currentHash : string)
    (st : tstate) : tstate :=
  if negb (String.eqb currentHash (lastDOMHash st)) && canTakeScreenshot now st
  then mkTState now currentHash (captures st ++ [(now, reason)]) (inflight st)
  else st.

(** The [setInterval] callback of [startScreenshotCapture] up to
    [await captureScreenshot('periodic')] ([hidden] is [document.hidden]):
    the capture request is sent, and [lastScreenshotTime] is not yet
    assigned. *)
Definition periodic_tick (now : Z) (hidden : bool) (st : tstate) : tstate :=
  if hidden then st
  else if Z.ltb (now - lastScreenshotTime st) SCREENSHOT_INTERVAL then st
  else mkTState (lastScreenshotTime st) (lastDOMHash st)
         (captures st ++ [(now, "periodic")]) (inflight st ++ [now]).

Fixpoint drop_nth {A : Type} (i : nat) (l : list A) : list A :=
  match l, i with
  | [], _ => []
  | _ :: l', O => l'
  | x :: l', S i' => x :: drop_nth i' l'
  end.

(** The [i]-th waiting callback resumes: [lastScreenshotTime = now] with
    the [now] of its own tick. *)
Definition periodic_done (i : nat) (st : tstate) : tstate :=
  match nth_error (inflight st) i with
  | Some t => mkTState t (lastDOMHash st) (captures st) (drop_nth i (inflight st))
  | None => st
  end.

Inductive tmsg :=
| Tick (now : Z) (hidden : bool)
| PeriodicDone (i : nat)
| DebounceFire (now : Z) (currentHash : string).

Definition tstep (st : tstate) (m : tmsg) : tstate :=
  match m with
  | Tick now hidden => periodic_tick now hidden st
  | PeriodicDone i => periodic_done i st
  | DebounceFire now h => debounce_fire "content_change" now h st
  end.

(** A content script's life: timer ticks, resumptions of the periodic
    callbacks and debounced callbacks, in the order the event loop runs
    them. *)
Definition trun (ms : list tmsg) (st : tstate) : tstate := fold_left tstep ms st.

(** The schedule in which every periodic callback resumes before
    anything else runs. *)
Definition completing (ms : list tmsg) : list tmsg :=
  flat_map (fun m => match m with
                     | Tick now hidden => [Tick now hidden; PeriodicDone 0]
                     | _ => [m]
                     end) ms.

(** Consecutive captures of a log are at least [d] milliseconds apart. *)
Fixpoint spaced (d : Z) (l : list (Z * string)) : bool :=
  match l with
  | (t1, _) :: ((t2, _) :: _) as l' => (d <=? t2 - t1) && spaced d l'
  | _ => true
  end.

End Throttle.

(* ------------------------------------------------------------------ *)
(** ** VLM worker: the cached [describe] handler *)

Module DescribeWorker.

Record request := mkRequest {
  req_id : string;        (* data.id *)
  req_img : string        (* data.imgBase64 *)
}.

Record response := mkResponse {
  resp_id : string;
  resp_description : string
}.

(** [`${data.id}-${data.imgBase64.slice(0, 100)}`]. *)
Definition cacheKey (r : request) : string :=
  req_id r +:+ "-" +:+ String.substring 0 100 (req_img r).

Definition VLM_CACHE_SIZE : nat := 100.

Section Worker.

(** The description the model produces for an image. *)
Variable infer : string -> string.

(** [self.onmessage] on a [describe] request: the posted message, tagged
    [true] when it came from [responseCache], and the new cache. *)
Definition on_describe (cache : Cache.jsmap response) (r : request)
    : (bool * response) * Cache.jsmap response :=
  match Cache.map_get (cacheKey r) cache with
  | Some resp => ((true, resp), cache)
  | None =>
      let resp := mkResponse (req_id r) (infer (req_img r)) in
      ((false, resp), Cache.cache_set VLM_CACHE_SIZE (cacheKey r) resp cache)
  end.

Fixpoint serve (rs : list request) (cache : Cache.jsmap response)
    : list (bool * response) :=
  match rs with
  | [] => []
  | r :: rs' =>
      let '(out, cache') := on_describe cache r in out :: serve rs' cache'
  end.

End Worker.

(** What [self.onmessage] posts for a [describe] request: the response
    object, or the catch block's [{id, error, eventContext}]. *)
Inductive posted :=
| Posted (resp : response)
| PostedError (id : string).

(** The whole [self.onmessage] on a [describe] request: [engine_ok]
    tells whether [enginePromise] resolved, [complete] gives the model's
    trimmed answer for an image, [None] when the completion (or reading
    [result.choices[0]]) throws. Every throw lands in the catch block,
    which posts the error reply and leaves [responseCache] as it is. *)
Definition on_message (engine_ok : bool) (complete : string -> option string)
    (cache : Cache.jsmap response) (r : request)
    : (bool * posted) * Cache.jsmap response :=
  if engine_ok then
    match Cache.map_get (cacheKey r) cache with
    | Some resp => ((true, Posted resp), cache)
    | None =>
        match complete (req_img r) with
        | Some d =>
            let resp := mkResponse (req_id r) d in
            ((false, Posted resp), Cache.cache_set VLM_CACHE_SIZE (cacheKey r) resp cache)
        | None => ((false, PostedError (req_id r)), cache)
        end
    end
  else ((false, PostedError (req_id r)), cache).

End DescribeWorker.

(* ------------------------------------------------------------------ *)
(** ** Content script: the page-content hash *)

Module PageHash.

(** [ToInt32]: the value modulo [2^32], read as a signed 32-bit integer. *)
Definition toInt32 (z : Z) : Z :=
  let m := z mod 2 ^ 32 in if 2 ^ 31 <=? m then m - 2 ^ 32 else m.

(** One iteration of the loop of [getPageContentHash]:
    [hash = ((hash << 5) - hash) + char; hash = hash & hash]. *)
Definition hash_step (hash char : Z) : Z :=
  let h := toInt32 (Z.shiftl (toInt32 hash) 5) - hash + char in
  Z.land (toInt32 h) (toInt32 h).

(** The hash of the cleaned page content, given as its UTF-16 code units
    ([content.charCodeAt(i)]); the regular-expression cleaning is not
    modelled. *)
Definition content_hash (codes : list Z) : Z := fold_left hash_step codes 0.

End PageHash.

(* ------------------------------------------------------------------ *)
(** ** Content script: the debounce of [checkAndTakeScreenshot] *)

Module Debounce.

(** The delay of the [setTimeout] in [checkAndTakeScreenshot]. *)
Definition DEBOUNCE_MS : Z := 500.

(** The callback scheduled by the last [setTimeout] and not yet run
    (its due time), and the times at which callbacks ran. *)
Record dstate := mkDState {
  scheduled : option Z;
  fired : list Z
}.

Definition dinit : dstate := mkDState None [].

(** [checkAndTakeScreenshot()] at time [t]: [clearTimeout] cancels the
    callback not yet run, then a new one is scheduled [DEBOUNCE_MS]
    later. *)
Definition check (t : Z) (st : dstate) : dstate :=
  mkDState (Some (t + DEBOUNCE_MS)) (fired st).

(** The event loop at time [t]: a callback due by [t] runs (before a
    mutation signal observed at [t]). *)
Definition run_due (t : Z) (st : dstate) : dstate :=
  match scheduled st with
  | Some d => if d <=? t then mkDState None (fired st ++ [d]) else st
  | None => st
  end.

(** A significant mutation observed at time [t]. *)
Definition signal (st : dstate) (t : Z) : dstate := check t (run_due t st).

(** Mutation signals at the given times, then the page left alone until
    the last callback has run. *)
Definition settle (ts : list Z) : list Z :=
  let st := fold_left signal ts dinit in
  match scheduled st with
  | Some d => fired st ++ [d]
  | None => fired st
  end.

End Debounce.

(* ================================================================== *)
(** * Properties *)

Module BackgroundFacts.
Import Background.

Lemma includes_In (l : list string) (s : string) :
  includes l s = true <-> In s l.
Proof.
  unfold includes. rewrite existsb_exists. split.
  - intros (x & Hx & Heq). apply String.eqb_eq in Heq. subst. exact Hx.
  - intros H. exists s. split; [exact H | apply String.eqb_refl].
Qed.

(** No pattern of the table ends on one of its own start triggers. *)
Lemma start_trigger_not_end (t : wf_type) (s : string) :
  includes (startTriggers (WORKFLOW_PATTERNS t)) s = true ->
  includes (endTriggers (WORKFLOW_PATTERNS t)) s = false.
Proof.
  intros H%includes_In.
  destruct t; simpl in H; intuition subst; reflexivity.
Qed.

Lemma label_event_fields (e0 e : evt) :
  label_event e0 = Some e ->
  etype e = etype e0 /\ elementType e = elementType e0 /\ imgBase64 e = imgBase64 e0.
Proof.
  unfold label_event.
  destruct (actionType e0) as [a|]; [|intros [= <-]; auto].
  repeat case_match; intros [= <-]; simpl; auto.
Qed.


Lemma finish_writes (st : state) : writes (finishWorkflow st) = writes st.
Proof.
  unfold finishWorkflow.
  destruct (wtype (currentWorkflow st)), (steps (currentWorkflow st)); reflexivity.
Qed.

Lemma finish_queue (st : state) :
  queue (finishWorkflow st) = queue st \/
  exists w, queue (finishWorkflow st) = queue st ++ [Workflow w].
Proof.
  unfold finishWorkflow.
  destruct (wtype (currentWorkflow st)), (steps (currentWorkflow st)); simpl; eauto.
Qed.

Lemma finish_idle (st : state) :
  wtype (currentWorkflow st) = None -> finishWorkflow st = st.
Proof. unfold finishWorkflow. intros ->. reflexivity. Qed.

Lemma start_loop_writes (now : Z) (e : evt) (ts : list wf_type) (st : state) :
  writes (start_loop now e ts st) = writes st.
Proof.
  revert st. induction ts as [|t ts IH]; intros st; simpl; [reflexivity|].
  rewrite IH. destruct (starts t e); [|reflexivity].
  destruct (too_old now _);
    [rewrite <- (finish_writes st); destruct (wtype (currentWorkflow (finishWorkflow st)))
    | destruct (wtype (currentWorkflow st))]; reflexivity.
Qed.

(** An active workflow that is not too old is left alone by the loop. *)
Lemma start_loop_stable (now : Z) (e : evt) (ts : list wf_type) (st : state) :
  wtype (currentWorkflow st) <> None -> too_old now (currentWorkflow st) = false ->
  start_loop now e ts st = st.
Proof.
  intros Hw Ho. induction ts as [|t ts IH]; simpl; [reflexivity|].
  destruct (starts t e); [|exact IH].
  rewrite Ho. destruct (wtype (currentWorkflow st)); [exact IH | congruence].
Qed.


(** The loop finishes at most one workflow; when it does, the workflow
    it leaves active was started by this event. *)
Lemma start_loop_shape (now : Z) (e : evt) (ts : list wf_type) (st : state) :
  queue (start_loop now e ts st) = queue st \/
  exists w t, queue (start_loop now e ts st) = queue st ++ [Workflow w] /\
    wtype (currentWorkflow (start_loop now e ts st)) = Some t /\ starts t e = true.
Proof.
  revert st. induction ts as [|t ts IH]; intros st; simpl; [left; reflexivity|].
  destruct (starts t e) eqn:Hs; [|apply IH].
  destruct st as [q [wt tg ss t0 le] wr]; simpl.
  destruct (too_old now _) eqn:Ho.
  - destruct wt as [p|]; [|discriminate Ho].
    destruct ss as [|s ss]; simpl.
    + apply IH.
    + right. rewrite start_loop_stable; simpl.
      * eexists _, t. split; [reflexivity|]. split; [reflexivity | exact Hs].
      * discriminate.
      * unfold too_old; simpl. rewrite Z.sub_diag. reflexivity.
  - destruct wt as [p|]; simpl.
    + apply IH.
    + destruct (IH (set_workflow
                     (mkWorkflow (Some t) (js_or (fieldLabel e) (identifier e)) []
                        (Some now) (Some now)) (mkState q idle_workflow wr)))
        as [H | (w & t' & H & H')]; simpl in *; [left; exact H | right; eauto].
Qed.

Lemma updateWorkflow_shape (now : Z) (e : evt) (st : state) :
  writes (updateWorkflow now e st) = writes st /\
  (queue (updateWorkflow now e st) = queue st \/
   exists w, queue (updateWorkflow now e st) = queue st ++ [Workflow w]).
Proof.
  unfold updateWorkflow.
  pose proof (start_loop_writes now e pattern_entries st) as Hwr.
  pose proof (start_loop_shape now e pattern_entries st) as Hsh.
  remember (start_loop now e pattern_entries st) as st1 eqn:Hst1.
  clear Hst1.
  destruct Hsh as [Hq | (w & t & Hq & Ht & Hs)].
  - destruct (wtype (currentWorkflow st1)) as [t|];
      [|split; [exact Hwr | left; exact Hq]].
    destruct (includes _ (etype e)).
    + rewrite finish_writes. split; [exact Hwr|].
      match goal with |- context [finishWorkflow ?s] =>
        destruct (finish_queue s) as [H | [w H]] end;
        rewrite H; simpl; rewrite Hq; eauto.
    + simpl. split; [exact Hwr | left; exact Hq].
  - rewrite Ht.
    unfold starts in Hs. apply andb_true_iff in Hs as [Hs _].
    rewrite (start_trigger_not_end t _ Hs). simpl.
    split; [exact Hwr | right; eauto].
Qed.

(** [handleEvent] on a labelled event: zero or one workflow record, then
    the raw event, then the flush check. *)
Lemma handleEvent_unfold (sr : list qitem -> string) (ok : bool) (now : Z)
    (st : state) (e0 e : evt) :
  label_event e0 = Some e ->
  exists extra : list qitem,
    (extra = [] \/ exists w, extra = [Workflow w]) /\
    handleEvent sr ok now st e0 =
      (let s := mkState (queue st ++ extra ++ [Raw e])
                  (currentWorkflow (updateWorkflow now e st)) (writes st) in
       if flush_due (queue s) e then flush_batch sr ok s else s).
Proof.
  intros H. unfold handleEvent. rewrite H.
  destruct (updateWorkflow_shape now e st) as [Hw [Hq | [w Hq]]].
  - exists []. split; [left; reflexivity|].
    unfold set_queue. rewrite Hq, Hw. reflexivity.
  - exists [Workflow w]. split; [right; eauto|].
    unfold set_queue. rewrite Hq, Hw, <- app_assoc. reflexivity.
Qed.

Lemma handleEvent_writes (sr : list qitem -> string) (ok : bool) (now : Z)
    (st : state) (e0 : evt) :
  exists suf, writes (handleEvent sr ok now st e0) = writes st ++ suf.
Proof.
  destruct (label_event e0) as [e|] eqn:He.
  - destruct (handleEvent_unfold sr ok now st e0 e He) as (extra & _ & ->).
    simpl. destruct (flush_due _ e); simpl.
    + unfold flush_batch. rewrite finish_writes. simpl. eauto.
    + exists []. rewrite app_nil_r. reflexivity.
  - unfold handleEvent. rewrite He. exists []. rewrite app_nil_r. reflexivity.
Qed.

Lemma run_writes (sr : list qitem -> string) (inputs : list (bool * Z * evt)) (st : state) :
  exists suf, writes (run sr inputs st) = writes st ++ suf.
Proof.
  revert st. induction inputs as [|[[ok now] e0] rest IH]; intros st; simpl.
  - exists []. rewrite app_nil_r. reflexivity.
  - destruct (IH (handleEvent sr ok now st e0)) as [suf1 H1].
    destruct (handleEvent_writes sr ok now st e0) as [suf0 H0].
    rewrite H1, H0, <- app_assoc. eauto.
Qed.

(** A step of [handleEvent] that writes nothing did not flush. *)
Lemma handleEvent_no_write (sr : list qitem -> string) (ok : bool) (now : Z)
    (st : state) (e0 e : evt) :
  label_event e0 = Some e ->
  writes (handleEvent sr ok now st e0) = writes st ->
  exists extra : list qitem,
    (extra = [] \/ exists w, extra = [Workflow w]) /\
    flush_due (queue st ++ extra ++ [Raw e]) e = false /\
    handleEvent sr ok now st e0 =
      mkState (queue st ++ extra ++ [Raw e])
        (currentWorkflow (updateWorkflow now e st)) (writes st).
Proof.
  intros He Hw.
  destruct (handleEvent_unfold sr ok now st e0 e He) as (extra & Hx & Hh).
  exists extra. split; [exact Hx|].
  rewrite Hh in *. simpl in *.
  destruct (flush_due _ e); [|split; reflexivity].
  exfalso. unfold flush_batch in Hw. simpl in Hw. rewrite finish_writes in Hw.
  simpl in Hw. apply (f_equal (@length _)) in Hw.
  rewrite length_app in Hw. simpl in Hw. lia.
Qed.

Lemma raw_events_app (a b : list qitem) :
  raw_events (a ++ b) = raw_events a ++ raw_events b.
Proof. unfold raw_events. apply flat_map_app. Qed.

Lemma raw_events_extra (extra : list qitem) :
  (extra = [] \/ exists w, extra = [Workflow w]) -> raw_events extra = [].
Proof. intros [-> | [w ->]]; reflexivity. Qed.

Lemma run_no_write (sr : list qitem -> string) (inputs : list (bool * Z * evt))
    (st : state) :
  Forall (fun i => label_event (snd i) <> None) inputs ->
  writes (run sr inputs st) = writes st ->
  (length (queue st) < MAX_BATCH_SIZE)%nat ->
  raw_events (queue (run sr inputs st)) =
    raw_events (queue st) ++ map (fun i => labelled (snd i)) inputs /\
  (length (queue (run sr inputs st)) < MAX_BATCH_SIZE)%nat.
Proof.
  revert st. induction inputs as [|[[ok now] e0] rest IH]; intros st Hl Hw Hlen; simpl in *.
  - rewrite app_nil_r. split; [reflexivity | exact Hlen].
  - inversion Hl as [|? ? He0 Hrest]; subst. simpl in He0.
    destruct (label_event e0) as [e|] eqn:He; [|congruence].
    destruct (run_writes sr rest (handleEvent sr ok now st e0)) as [suf1 H1].
    destruct (handleEvent_writes sr ok now st e0) as [suf0 H0].
    assert (Hs0 : suf0 = []).
    { rewrite Hw, H0, <- app_assoc in H1.
      apply (f_equal (@length _)) in H1. rewrite !length_app in H1.
      destruct suf0; [reflexivity | simpl in H1; lia]. }
    subst suf0. rewrite app_nil_r in H0.
    destruct (handleEvent_no_write sr ok now st e0 e He H0) as (extra & Hx & Hf & Hh).
    rewrite Hh in *.
    destruct (IH (mkState (queue st ++ extra ++ [Raw e])
                  (currentWorkflow (updateWorkflow now e st)) (writes st)) Hrest)
      as [IHr IHl].
    + exact Hw.
    + simpl. unfold flush_due in Hf. apply orb_false_iff in Hf as [Hf _].
      apply Nat.leb_gt in Hf. exact Hf.
    + split; [|exact IHl]. rewrite IHr. simpl.
      rewrite !raw_events_app, (raw_events_extra extra Hx).
      replace (labelled e0) with e by (unfold labelled; rewrite He; reflexivity).
      rewrite <- !app_assoc. reflexivity.
Qed.

(** ** C1 *)

(** C1 (corrected): for every event that [handleEvent] processes (its
    labelling does not throw), the classifier appends zero or one
    workflow record (the workflow completed on this event), and then the
    raw labelled event is always appended; the flush check runs on that
    queue. An event that completes a workflow thus adds both entries. *)
Theorem handleEvent_record_then_raw (sr : list qitem -> string) (ok : bool)
    (now : Z) (st : state) (e0 e : evt) :
  label_event e0 = Some e ->
  exists extra : list qitem,
    (extra = [] \/ exists w, extra = [Workflow w]) /\
    handleEvent sr ok now st e0 =
      (let s := mkState (queue st ++ extra ++ [Raw e])
                  (currentWorkflow (updateWorkflow now e st)) (writes st) in
       if flush_due (queue s) e then flush_batch sr ok s else s).
Proof. apply handleEvent_unfold. Qed.

Lemma handleEvent_record_then_raw_witness :
  label_event (plain_evt "change" "input") = Some (plain_evt "change" "input") /\
  exists extra : list qitem,
    (extra = [] \/ exists w, extra = [Workflow w]) /\
    handleEvent (fun _ => "") true 1000
      (handleEvent (fun _ => "") true 0 init_state (plain_evt "click" "input"))
      (plain_evt "change" "input") =
      (let st := handleEvent (fun _ => "") true 0 init_state (plain_evt "click" "input") in
       let s := mkState (queue st ++ extra ++ [Raw (plain_evt "change" "input")])
                  (currentWorkflow (updateWorkflow 1000 (plain_evt "change" "input") st))
                  (writes st) in
       if flush_due (queue s) (plain_evt "change" "input")
       then flush_batch (fun _ => "") true s else s).
Proof.
  split; [reflexivity|].
  apply (handleEvent_record_then_raw (fun _ => "") true 1000
           (handleEvent (fun _ => "") true 0 init_state (plain_evt "click" "input"))
           (plain_evt "change" "input") (plain_evt "change" "input")).
  reflexivity.
Defined.

(** C1 counterexample: a click on an input starts a Field Update
    workflow; the following change on the input ends it, and that one
    event adds two queue entries (the workflow record and the raw event). *)
Lemma change_event_adds_two_entries :
  length (queue (handleEvent (fun _ => "") true 1000
    (handleEvent (fun _ => "") true 0 init_state (plain_evt "click" "input"))
    (plain_evt "change" "input"))) =
  (length (queue (handleEvent (fun _ => "") true 0 init_state (plain_evt "click" "input")))
   + 2)%nat.
Proof. vm_compute. reflexivity. Qed.

(** ** C2 *)

(** C2 (corrected): from an empty queue and idle classifier, if ingesting
    a sequence of events (each labelled without error) performed no store
    write, the queue holds exactly those events in order, interleaved with
    the workflow records completed on the way, and is shorter than
    [MAX_BATCH_SIZE]. *)
Theorem no_flush_queue_contents (sr : list qitem -> string)
    (inputs : list (bool * Z * evt)) :
  Forall (fun i => label_event (snd i) <> None) inputs ->
  writes (run sr inputs init_state) = [] ->
  raw_events (queue (run sr inputs init_state)) = map (fun i => labelled (snd i)) inputs /\
  (length (queue (run sr inputs init_state)) < MAX_BATCH_SIZE)%nat.
Proof.
  intros Hl Hw.
  assert (H0 : (length (queue init_state) < MAX_BATCH_SIZE)%nat)
    by (vm_compute; lia).
  exact (run_no_write sr inputs init_state Hl Hw H0).
Qed.

Lemma no_flush_queue_contents_witness :
  Forall (fun i => label_event (snd i) <> None)
    [(true, 0%Z, plain_evt "click" "div"); (true, 5%Z, plain_evt "focus" "div")] /\
  writes (run (fun _ => "") [(true, 0%Z, plain_evt "click" "div");
                             (true, 5%Z, plain_evt "focus" "div")] init_state) = [] /\
  raw_events (queue (run (fun _ => "") [(true, 0%Z, plain_evt "click" "div");
                                        (true, 5%Z, plain_evt "focus" "div")] init_state)) =
    map (fun i => labelled (snd i))
      [(true, 0%Z, plain_evt "click" "div"); (true, 5%Z, plain_evt "focus" "div")] /\
  (length (queue (run (fun _ => "") [(true, 0%Z, plain_evt "click" "div");
                                     (true, 5%Z, plain_evt "focus" "div")] init_state))
   < MAX_BATCH_SIZE)%nat.
Proof.
  assert (Hl : Forall (fun i => label_event (snd i) <> None)
    [(true, 0%Z, plain_evt "click" "div"); (true, 5%Z, plain_evt "focus" "div")]).
  { repeat constructor; simpl; discriminate. }
  assert (Hw : writes (run (fun _ => "") [(true, 0%Z, plain_evt "click" "div");
                                          (true, 5%Z, plain_evt "focus" "div")] init_state) = []).
  { vm_compute. reflexivity. }
  split; [exact Hl|]. split; [exact Hw|].
  exact (no_flush_queue_contents (fun _ => "") _ Hl Hw).
Defined.

(** C2 counterexample: two non-screenshot events (a click and a change on
    an input) leave three queue entries; seven such events already fill
    the queue to [MAX_BATCH_SIZE] and trigger a flush. *)
Lemma two_events_three_entries :
  length (queue (run (fun _ => "") [(true, 0%Z, plain_evt "click" "input");
                                    (true, 1000%Z, plain_evt "change" "input")] init_state))
    = 3%nat /\
  length (writes (run (fun _ => "")
    [(true, 0%Z, plain_evt "click" "input"); (true, 1%Z, plain_evt "change" "input");
     (true, 2%Z, plain_evt "click" "input"); (true, 3%Z, plain_evt "change" "input");
     (true, 4%Z, plain_evt "click" "input"); (true, 5%Z, plain_evt "change" "input");
     (true, 6%Z, plain_evt "click" "input")] init_state)) = 1%nat.
Proof. split; vm_compute; reflexivity. Qed.

(** ** C3 *)

(** C3 (confirmed): handling a screenshot event performs exactly one
    flush, whatever the queue length, and after a successful store write
    the queue is empty. *)
Theorem screenshot_event_flushes_once (sr : list qitem -> string) (now : Z)
    (st : state) (e0 e : evt) :
  label_event e0 = Some e -> etype e0 = "screenshot" ->
  (forall ok, exists w, writes (handleEvent sr ok now st e0) = writes st ++ [(ok, w)]) /\
  queue (handleEvent sr true now st e0) = [].
Proof.
  intros He Ht.
  assert (Hd : forall q, flush_due q e = true).
  { intros q. unfold flush_due. destruct (label_event_fields e0 e He) as [-> _].
    rewrite Ht. apply orb_true_r. }
  split.
  - intros ok. destruct (handleEvent_unfold sr ok now st e0 e He) as (extra & _ & ->).
    simpl. rewrite Hd. unfold flush_batch. rewrite finish_writes. simpl. eauto.
  - destruct (handleEvent_unfold sr true now st e0 e He) as (extra & _ & ->).
    simpl. rewrite Hd. reflexivity.
Qed.

Lemma screenshot_event_flushes_once_witness :
  label_event (screenshot_evt "iVBOR") = Some (screenshot_evt "iVBOR") /\
  etype (screenshot_evt "iVBOR") = "screenshot" /\
  (forall ok, exists w, writes (handleEvent (fun _ => "") ok 0 init_state
       (screenshot_evt "iVBOR")) = writes init_state ++ [(ok, w)]) /\
  queue (handleEvent (fun _ => "") true 0 init_state (screenshot_evt "iVBOR")) = [].
Proof.
  split; [reflexivity|]. split; [reflexivity|].
  apply (screenshot_event_flushes_once (fun _ => "") 0 init_state
           (screenshot_evt "iVBOR") (screenshot_evt "iVBOR")); reflexivity.
Defined.

(** ** C4 *)









(** ** C7 *)

(** One [handleEvent]: either no write and the queue only grows, or one
    write of the sanitized queue as it stood at the flush, a queue that
    extends the old one and is kept when the write fails. *)
Lemma handleEvent_cases (sr : list qitem -> string) (ok : bool) (now : Z)
    (st : state) (e0 : evt) :
  (writes (handleEvent sr ok now st e0) = writes st /\
   exists k, queue (handleEvent sr ok now st e0) = queue st ++ k) \/
  (exists k w, writes (handleEvent sr ok now st e0) = writes st ++ [(ok, w)] /\
     events w = map sanitize (queue st ++ k) /\
     (ok = false -> queue (handleEvent sr ok now st e0) = queue st ++ k)).
Proof.
  destruct (label_event e0) as [e|] eqn:He.
  - destruct (handleEvent_unfold sr ok now st e0 e He) as (extra & _ & ->).
    simpl. destruct (flush_due _ e).
    + right. unfold flush_batch. rewrite finish_writes. simpl.
      destruct (finish_queue (mkState (queue st ++ extra ++ [Raw e])
                 (currentWorkflow (updateWorkflow now e st)) (writes st)))
        as [Hq | [w Hq]]; rewrite Hq; simpl.
      * do 2 eexists. split; [reflexivity|]. split; [reflexivity|].
        intros ->. reflexivity.
      * exists ((extra ++ [Raw e]) ++ [Workflow w]). eexists.
        split; [reflexivity|]. rewrite !app_assoc. split; [reflexivity|].
        intros ->. reflexivity.
    + left. split; [reflexivity | eauto].
  - left. unfold handleEvent. rewrite He. split; [reflexivity|].
    exists []. rewrite app_nil_r. reflexivity.
Qed.

(** Until a store write succeeds, the queue only grows and every write
    fails; the first successful write persists the sanitized queue as a
    prefix of its [events] array. *)
Lemma run_retains (sr : list qitem -> string) (inputs : list (bool * Z * evt))
    (st : state) :
  (exists ws, writes (run sr inputs st) = writes st ++ ws /\
     Forall (fun x => fst x = false) ws /\
     exists k, queue (run sr inputs st) = queue st ++ k) \/
  (exists pre w post k,
     writes (run sr inputs st) = writes st ++ pre ++ (true, w) :: post /\
     Forall (fun x => fst x = false) pre /\
     events w = map sanitize (queue st) ++ k).
Proof.
  revert st. induction inputs as [|[[ok now] e0] rest IH]; intros st; simpl.
  - left. exists []. split; [rewrite app_nil_r; reflexivity|].
    split; [constructor|]. exists []. rewrite app_nil_r. reflexivity.
  - destruct (handleEvent_cases sr ok now st e0) as [[Hw [k0 Hq]] | (k0 & w0 & Hw & Hev & Hq)].
    + destruct (IH (handleEvent sr ok now st e0))
        as [(ws & Hws & Hf & k & Hk) | (pre & w & post & k & Hws & Hf & Hk)];
        rewrite Hw in Hws; rewrite Hq in Hk.
      * left. exists ws. split; [exact Hws|]. split; [exact Hf|].
        exists (k0 ++ k). rewrite Hk, app_assoc. reflexivity.
      * right. exists pre, w, post, (map sanitize k0 ++ k).
        split; [exact Hws|]. split; [exact Hf|].
        rewrite Hk, map_app, app_assoc. reflexivity.
    + destruct ok.
      * right. destruct (run_writes sr rest (handleEvent sr true now st e0)) as [suf Hs].
        exists [], w0, suf, (map sanitize k0).
        rewrite Hs, Hw, <- app_assoc. split; [reflexivity|].
        split; [constructor|]. rewrite Hev, map_app. reflexivity.
      * specialize (Hq eq_refl).
        destruct (IH (handleEvent sr false now st e0))
          as [(ws & Hws & Hf & k & Hk) | (pre & w & post & k & Hws & Hf & Hk)];
          rewrite Hw in Hws; rewrite Hq in Hk.
        -- left. exists ((false, w0) :: ws). rewrite Hws, <- app_assoc.
           split; [reflexivity|]. split; [constructor; auto|].
           exists (k0 ++ k). rewrite Hk, app_assoc. reflexivity.
        -- right. exists ((false, w0) :: pre), w, post, (map sanitize k0 ++ k).
           rewrite Hws, <- app_assoc. split; [reflexivity|].
           split; [constructor; auto|].
           rewrite Hk, map_app, app_assoc. reflexivity.
Qed.

(** C7 (confirmed): when the store write of a flush fails, the queue is
    not cleared: it still holds everything the write tried to persist
    (the old queue, this event and the record of the workflow finished by
    the flush). From then on the queue only grows until a write succeeds,
    and the first successful write persists all of it. *)
Theorem failed_flush_retains_queue (sr : list qitem -> string) (now : Z)
    (st : state) (e0 : evt) (w : store_write) :
  writes (handleEvent sr false now st e0) = writes st ++ [(false, w)] ->
  events w = map sanitize (queue (handleEvent sr false now st e0)) /\
  (exists k, queue (handleEvent sr false now st e0) = queue st ++ k) /\
  forall inputs : list (bool * Z * evt),
    let st' := handleEvent sr false now st e0 in
    (exists ws, writes (run sr inputs st') = writes st' ++ ws /\
       Forall (fun x => fst x = false) ws /\
       exists k, queue (run sr inputs st') = queue st' ++ k) \/
    (exists pre w' post k,
       writes (run sr inputs st') = writes st' ++ pre ++ (true, w') :: post /\
       Forall (fun x => fst x = false) pre /\
       events w' = map sanitize (queue st') ++ k).
Proof.
  intros Hw.
  destruct (handleEvent_cases sr false now st e0) as [[Hw' _] | (k & w0 & Hw' & Hev & Hq)].
  - rewrite Hw' in Hw. apply (f_equal (@length _)) in Hw.
    rewrite length_app in Hw. simpl in Hw. lia.
  - rewrite Hw' in Hw. apply app_inv_head in Hw. injection Hw as <-.
    specialize (Hq eq_refl). rewrite Hq.
    split; [exact Hev|]. split; [eauto|].
    intros inputs. apply run_retains.
Qed.

Lemma failed_flush_retains_queue_witness :
  writes (handleEvent (fun _ => "") false 0 init_state (screenshot_evt "iVBOR")) =
    writes init_state ++
      [(false, mkWrite "" [Raw (set_imgBase64 None (screenshot_evt "iVBOR"))])] /\
  events (mkWrite "" [Raw (set_imgBase64 None (screenshot_evt "iVBOR"))]) =
    map sanitize (queue (handleEvent (fun _ => "") false 0 init_state
                           (screenshot_evt "iVBOR"))) /\
  (exists k, queue (handleEvent (fun _ => "") false 0 init_state (screenshot_evt "iVBOR"))
               = queue init_state ++ k) /\
  forall inputs : list (bool * Z * evt),
    let st' := handleEvent (fun _ => "") false 0 init_state (screenshot_evt "iVBOR") in
    (exists ws, writes (run (fun _ => "") inputs st') = writes st' ++ ws /\
       Forall (fun x => fst x = false) ws /\
       exists k, queue (run (fun _ => "") inputs st') = queue st' ++ k) \/
    (exists pre w' post k,
       writes (run (fun _ => "") inputs st') = writes st' ++ pre ++ (true, w') :: post /\
       Forall (fun x => fst x = false) pre /\
       events w' = map sanitize (queue st') ++ k).
Proof.
  assert (H : writes (handleEvent (fun _ => "") false 0 init_state (screenshot_evt "iVBOR")) =
    writes init_state ++
      [(false, mkWrite "" [Raw (set_imgBase64 None (screenshot_evt "iVBOR"))])])
    by (vm_compute; reflexivity).
  split; [exact H|].
  exact (failed_flush_retains_queue (fun _ => "") 0 init_state (screenshot_evt "iVBOR") _ H).
Defined.

(** ** C8 *)



Import BackgroundAsync.










End BackgroundFacts.

Module RouterFacts.
Import Router.

Definition present (o : option nat) : nat :=
  match o with Some _ => 1%nat | None => 0%nat end.

Lemma deliveries_of_snoc (x : string) (d : list (nat * reply)) (p : nat) (r : reply) :
  deliveries_of x (d ++ [(p, r)]) =
    (deliveries_of x d + if String.eqb (rid r) x then 1 else 0)%nat.
Proof.
  unfold deliveries_of. rewrite List.filter_app, length_app. simpl.
  destruct (String.eqb (rid r) x); reflexivity.
Qed.

(** Deliveries of [x] plus a pending entry for [x] never grow by more
    than the registrations of [x]. *)
Lemma rstep_budget (x : string) (st : rstate) (m : msg) :
  (deliveries_of x (delivered (rstep st m)) + present (pending (rstep st m) !! x)
   <= deliveries_of x (delivered st) + present (pending st !! x)
      + if registers x m then 1 else 0)%nat.
Proof.
  destruct m as [p cmd id | w d | p]; simpl.
  - unfold onPortMessage.
    destruct (String.eqb_spec id x) as [-> | Hne]; simpl.
    + destruct (String.eqb cmd "describe"); simpl;
        [rewrite lookup_insert_eq; destruct (pending st !! x); simpl; lia|].
      destruct (String.eqb cmd "summarise"); simpl;
        [rewrite lookup_insert_eq; destruct (pending st !! x); simpl; lia | lia].
    + destruct (String.eqb cmd "describe"); simpl;
        [rewrite lookup_insert_ne by congruence; lia|].
      destruct (String.eqb cmd "summarise"); simpl;
        [rewrite lookup_insert_ne by congruence; lia | lia].
  - unfold routeResponse.
    destruct (pending st !! rid d) as [p|] eqn:Hp; simpl; [|lia].
    destruct (existsb (Nat.eqb p) (disconnected st)); [lia|]. simpl.
    rewrite deliveries_of_snoc.
    destruct (String.eqb_spec (rid d) x) as [<- | Hne].
    + rewrite lookup_delete_eq, Hp. simpl. lia.
    + rewrite lookup_delete_ne by exact Hne. lia.
  - lia.
Qed.

Lemma rrun_budget (x : string) (ms : list msg) (st : rstate) :
  (deliveries_of x (delivered (rrun ms st)) + present (pending (rrun ms st) !! x)
   <= deliveries_of x (delivered st) + present (pending st !! x)
      + length (List.filter (registers x) ms))%nat.
Proof.
  unfold rrun. revert st. induction ms as [|m ms IH]; intros st; simpl; [lia|].
  pose proof (rstep_budget x st m) as Hs. specialize (IH (rstep st m)).
  destruct (registers x m); simpl in *; lia.
Qed.

Lemma existsb_nat_In (p : nat) (l : list nat) : existsb (Nat.eqb p) l = true <-> In p l.
Proof.
  rewrite existsb_exists. split.
  - intros (x & Hx & Heq). apply Nat.eqb_eq in Heq. subst. exact Hx.
  - intros H. exists p. split; [exact H | apply Nat.eqb_refl].
Qed.

(** C5 (corrected): a reply whose id is pending for a port that is still
    connected is posted unchanged to that port and its entry removed; if
    that port has disconnected, [postMessage] throws: nothing is
    delivered and the entry stays; a reply whose id is not pending is
    dropped. Handling a second reply with the same id right after the
    first changes nothing more (after a delivery it is dropped, after a
    throw it throws again); and when an id is registered by at most one
    request, at most one reply with that id is ever delivered. *)
Theorem reply_delivered_at_most_once :
  (forall (w : string) (d : reply) (st : rstate) (p : nat),
     pending st !! rid d = Some p -> ~ In p (disconnected st) ->
     routeResponse w d st =
       mkRState (delete (rid d) (pending st)) (forwarded st) (delivered st ++ [(p, d)])
         (disconnected st)) /\
  (forall (w : string) (d : reply) (st : rstate) (p : nat),
     pending st !! rid d = Some p -> In p (disconnected st) ->
     routeResponse w d st = st) /\
  (forall (w : string) (d : reply) (st : rstate),
     pending st !! rid d = None -> routeResponse w d st = st) /\
  (forall (w w' : string) (d d' : reply) (st : rstate),
     rid d' = rid d ->
     routeResponse w' d' (routeResponse w d st) = routeResponse w d st) /\
  (forall (x : string) (ms : list msg),
     (length (List.filter (registers x) ms) <= 1)%nat ->
     (deliveries_of x (delivered (rrun ms rinit)) <= 1)%nat).
Proof.
  split; [|split; [|split; [|split]]].
  - intros w d st p Hp Hd. unfold routeResponse. rewrite Hp.
    destruct (existsb (Nat.eqb p) (disconnected st)) eqn:He;
      [apply existsb_nat_In in He; contradiction | reflexivity].
  - intros w d st p Hp Hd. unfold routeResponse. rewrite Hp.
    apply existsb_nat_In in Hd. rewrite Hd. reflexivity.
  - intros w d st Hp. unfold routeResponse. rewrite Hp. reflexivity.
  - intros w w' d d' st Hid. unfold routeResponse at 2.
    destruct (pending st !! rid d) as [p|] eqn:Hp.
    + destruct (existsb (Nat.eqb p) (disconnected st)) eqn:He.
      * unfold routeResponse. rewrite Hid, Hp, He. reflexivity.
      * unfold routeResponse at 1. simpl. rewrite Hid, lookup_delete_eq.
        unfold routeResponse. rewrite Hp, He. reflexivity.
    + unfold routeResponse. rewrite Hid, Hp. reflexivity.
  - intros x ms Hr. pose proof (rrun_budget x ms rinit) as H.
    simpl in H. rewrite lookup_empty in H. simpl in H.
    lia.
Qed.

Lemma reply_delivered_at_most_once_witness :
  (length (List.filter (registers "a")
     [PortMessage 1 "describe" "a"; WorkerMessage "vlm" (mkReply "a" "desc");
      WorkerMessage "vlm" (mkReply "a" "desc")]) <= 1)%nat /\
  (deliveries_of "a" (delivered (rrun
     [PortMessage 1 "describe" "a"; WorkerMessage "vlm" (mkReply "a" "desc");
      WorkerMessage "vlm" (mkReply "a" "desc")] rinit)) <= 1)%nat.
Proof.
  assert (H : (length (List.filter (registers "a")
     [PortMessage 1 "describe" "a"; WorkerMessage "vlm" (mkReply "a" "desc");
      WorkerMessage "vlm" (mkReply "a" "desc")]) <= 1)%nat) by (vm_compute; lia).
  split; [exact H|].
  exact (proj2 (proj2 (proj2 (proj2 reply_delivered_at_most_once))) "a" _ H).
Defined.

(** C5 counterexample: port 1 asks for a description and disconnects
    before the reply arrives; the reply is found in [pending] but not
    delivered, and the entry is not removed. *)
Lemma reply_to_disconnected_port_kept :
  pending (rrun [PortMessage 1 "describe" "a"; PortDisconnect 1;
                 WorkerMessage "vlm" (mkReply "a" "desc")] rinit) !! "a" = Some 1%nat /\
  delivered (rrun [PortMessage 1 "describe" "a"; PortDisconnect 1;
                   WorkerMessage "vlm" (mkReply "a" "desc")] rinit) = [].
Proof. split; vm_compute; reflexivity. Qed.

End RouterFacts.

Module CacheFacts.
Import Cache.

Section Fifo.

Context {V : Type}.

(** The last [K] elements of a list. *)
Definition lastn (K : nat) (l : list string) : list string :=
  skipn (length l - K) l.

Lemma lastn_lastn_app (K : nat) (l r : list string) :
  lastn K (lastn K l ++ r) = lastn K (l ++ r).
Proof.
  unfold lastn. destruct (Nat.le_gt_cases (length l) K) as [Hle | Hgt].
  - replace (length l - K)%nat with 0%nat by lia. reflexivity.
  - rewrite !length_app, length_skipn.
    replace (length l - (length l - K) + length r - K)%nat with (length r) by lia.
    replace (length l + length r - K)%nat with (length r + (length l - K))%nat by lia.
    rewrite <- skipn_skipn. f_equal. rewrite skipn_app.
    replace (length l - K - length l)%nat with 0%nat by lia. reflexivity.
Qed.

Lemma map_set_fresh (k : string) (v : V) (m : jsmap V) :
  ~ In k (map fst m) -> map_set k v m = m ++ [(k, v)].
Proof.
  induction m as [|[k' v'] m IH]; intros Hn; simpl; [reflexivity|].
  simpl in Hn. destruct (String.eqb_spec k k') as [-> | _]; [tauto|].
  rewrite IH by tauto. reflexivity.
Qed.

Lemma map_set_length (k : string) (v : V) (m : jsmap V) :
  (length (map_set k v m) <= S (length m))%nat.
Proof.
  induction m as [|[k' v'] m IH]; simpl; [lia|].
  destruct (String.eqb k k'); simpl; lia.
Qed.

Lemma map_delete_head (k : string) (v : V) (m : jsmap V) :
  map_delete k ((k, v) :: m) = m.
Proof. simpl. rewrite String.eqb_refl. reflexivity. Qed.

Lemma map_get_absent (k : string) (m : jsmap V) :
  ~ In k (map fst m) -> map_get k m = None.
Proof.
  induction m as [|[k' v'] m IH]; intros Hn; simpl; [reflexivity|].
  simpl in Hn. destruct (String.eqb_spec k k') as [-> | _]; [tauto|].
  apply IH. tauto.
Qed.

Lemma cache_set_bounded (K : nat) (k : string) (v : V) (m : jsmap V) :
  (length m <= K)%nat -> (length (cache_set K k v m) <= K)%nat.
Proof.
  intros Hm. unfold cache_set. pose proof (map_set_length k v m) as Hs.
  destruct (Nat.ltb_spec K (length (map_set k v m))) as [Hlt | Hge]; [|exact Hge].
  destruct (map_set k v m) as [|[k0 v0] m'] eqn:Hms; simpl in *; [lia|].
  rewrite String.eqb_refl. lia.
Qed.

Lemma cache_set_fresh_keys (K : nat) (k : string) (v : V) (m : jsmap V) :
  ~ In k (map fst m) -> (length m <= K)%nat ->
  map fst (cache_set K k v m) = lastn K (map fst m ++ [k]).
Proof.
  intros Hn Hm. unfold cache_set, lastn. rewrite map_set_fresh by exact Hn.
  rewrite !length_app, length_map. simpl.
  destruct (Nat.ltb_spec K (length m + 1)) as [Hlt | Hge].
  - replace (length m + 1 - K)%nat with 1%nat by lia.
    destruct m as [|[k0 v0] m']; simpl; rewrite String.eqb_refl;
      [reflexivity | rewrite map_app; reflexivity].
  - replace (length m + 1 - K)%nat with 0%nat by lia. rewrite map_app. reflexivity.
Qed.

Lemma NoDup_skipn_app (n : nat) (l1 l2 : list string) :
  List.NoDup (l1 ++ l2) -> List.NoDup (skipn n l1 ++ l2).
Proof.
  intros H. rewrite <- (firstn_skipn n l1), <- app_assoc in H.
  exact (List.NoDup_app_remove_l _ _ H).
Qed.

(** With distinct keys, the cache holds the last [K] keys written, in
    insertion order, whatever reads happen in between. *)
Lemma cache_run_keys (K : nat) (tr : list (op V)) (m : jsmap V) :
  List.NoDup (map fst m ++ set_keys tr) -> (length m <= K)%nat ->
  map fst (cache_run K tr m) = lastn K (map fst m ++ set_keys tr).
Proof.
  unfold cache_run. revert m.
  induction tr as [|[k | k v] tr IH]; intros m Hnd Hm; simpl in *.
  - rewrite app_nil_r. unfold lastn.
    replace (length (map fst m) - K)%nat with 0%nat by (rewrite length_map; lia).
    reflexivity.
  - apply IH; assumption.
  - assert (Hk : ~ In k (map fst m)).
    { intros Hin. apply List.NoDup_remove_2 in Hnd. apply Hnd, in_or_app. left. exact Hin. }
    rewrite IH.
    + rewrite cache_set_fresh_keys by assumption.
      rewrite lastn_lastn_app, <- app_assoc. reflexivity.
    + rewrite cache_set_fresh_keys by assumption. unfold lastn.
      apply NoDup_skipn_app. rewrite <- app_assoc. exact Hnd.
    + apply cache_set_bounded. exact Hm.
Qed.

Lemma map_get_In (k : string) (v : V) (m : jsmap V) :
  map_get k m = Some v -> In k (map fst m).
Proof.
  induction m as [|[k' v'] m IH]; simpl; [discriminate|].
  destruct (String.eqb_spec k k'); auto.
Qed.

Lemma map_set_keys (k k' : string) (v : V) (m : jsmap V) :
  In k (map fst (map_set k' v m)) -> k = k' \/ In k (map fst m).
Proof.
  induction m as [|[k1 v1] m IH]; simpl; [intros [H | []]; auto|].
  destruct (String.eqb k' k1); simpl; [tauto|].
  intros [H | H]; [tauto|]. destruct (IH H); tauto.
Qed.

Lemma map_delete_keys (k k' : string) (m : jsmap V) :
  In k (map fst (map_delete k' m)) -> In k (map fst m).
Proof.
  induction m as [|[k1 v1] m IH]; simpl; [tauto|].
  destruct (String.eqb k' k1); simpl; [tauto|].
  intros [H | H]; [tauto|]. right. exact (IH H).
Qed.

Lemma cache_set_keys (K : nat) (k k' : string) (v : V) (m : jsmap V) :
  In k (map fst (cache_set K k' v m)) -> k = k' \/ In k (map fst m).
Proof.
  unfold cache_set. intros H. apply (map_set_keys k k' v m).
  destruct (K <? length (map_set k' v m))%nat; [|exact H].
  destruct (map_set k' v m) as [|[k0 v0] m'] eqn:Hs; [exact H|].
  exact (map_delete_keys k k0 _ H).
Qed.

(** C6 (confirmed): for a cache of capacity [K], an insertion into a
    cache of at most [K] entries leaves at most [K]; and writing [K + 1]
    distinct keys into an empty cache, with any reads in between, evicts
    exactly the first key written (a read never changes the order), after
    which a lookup of that key misses. *)
Theorem fifo_eviction (K : nat) :
  (forall (k : string) (v : V) (m : jsmap V),
     (length m <= K)%nat -> (length (cache_set K k v m) <= K)%nat) /\
  (forall (tr : list (op V)) (k0 : string) (ks : list string),
     set_keys tr = k0 :: ks -> List.NoDup (k0 :: ks) -> length ks = K ->
     map fst (cache_run K tr []) = ks /\ map_get k0 (cache_run K tr []) = None).
Proof.
  split.
  - intros k v m. apply cache_set_bounded.
  - intros tr k0 ks Hk Hnd Hlen.
    assert (Hkeys : map fst (cache_run K tr []) = ks).
    { rewrite cache_run_keys; simpl; rewrite ?Hk; [| exact Hnd | lia].
      unfold lastn. simpl. replace (S (length ks) - K)%nat with 1%nat by lia.
      reflexivity. }
    split; [exact Hkeys|].
    apply map_get_absent. rewrite Hkeys. inversion Hnd; assumption.
Qed.

End Fifo.

Lemma fifo_eviction_witness :
  Cache.set_keys [Cache.CacheSet "a" 1%nat; Cache.CacheGet "a"; Cache.CacheSet "b" 2%nat;
            Cache.CacheGet "a"; Cache.CacheSet "c" 3%nat] = "a" :: ["b"; "c"] /\
  List.NoDup ["a"; "b"; "c"] /\ length ["b"; "c"] = 2%nat /\
  map fst (Cache.cache_run 2 [Cache.CacheSet "a" 1%nat; Cache.CacheGet "a";
             Cache.CacheSet "b" 2%nat; Cache.CacheGet "a"; Cache.CacheSet "c" 3%nat] [])
    = ["b"; "c"] /\
  Cache.map_get "a" (Cache.cache_run 2 [Cache.CacheSet "a" 1%nat; Cache.CacheGet "a";
             Cache.CacheSet "b" 2%nat; Cache.CacheGet "a"; Cache.CacheSet "c" 3%nat] [])
    = None.
Proof.
  assert (Hnd : List.NoDup ["a"; "b"; "c"]).
  { repeat constructor; simpl; intuition discriminate. }
  split; [reflexivity|]. split; [exact Hnd|]. split; [reflexivity|].
  exact (proj2 (fifo_eviction 2)
           [Cache.CacheSet "a" 1%nat; Cache.CacheGet "a"; Cache.CacheSet "b" 2%nat;
            Cache.CacheGet "a"; Cache.CacheSet "c" 3%nat] "a" ["b"; "c"] eq_refl Hnd eq_refl).
Defined.

End CacheFacts.

Module ThrottleFacts.
Import Throttle.

Lemma spaced_snoc (d : Z) (l : list (Z * string)) (t : Z) (r : string) :
  spaced d l = true ->
  (forall pre t0 r0, l = pre ++ [(t0, r0)] -> d <= t - t0) ->
  spaced d (l ++ [(t, r)]) = true.
Proof.
  induction l as [|[t1 r1] l IH]; intros Hs Hlast; [reflexivity|].
  destruct l as [|[t2 r2] l].
  - simpl. rewrite andb_true_r. apply Z.leb_le.
    apply (Hlast [] t1 r1). reflexivity.
  - change (((t1, r1) :: (t2, r2) :: l) ++ [(t, r)])
      with ((t1, r1) :: ((t2, r2) :: l) ++ [(t, r)]).
    change (spaced d ((t1, r1) :: (t2, r2) :: l) = true) in Hs.
    change (((t2, r2) :: l) ++ [(t, r)]) with ((t2, r2) :: (l ++ [(t, r)])).
    change ((d <=? t2 - t1) && spaced d (((t2, r2) :: l) ++ [(t, r)]) = true).
    change ((d <=? t2 - t1) && spaced d ((t2, r2) :: l) = true) in Hs.
    apply andb_true_iff in Hs as [H12 Hs].
    rewrite H12. simpl andb. apply IH; [exact Hs|].
    intros pre t0 r0 Heq. apply (Hlast ((t1, r1) :: pre) t0 r0). rewrite Heq. reflexivity.
Qed.

(** The time of the last capture is [lastScreenshotTime]. *)
Definition last_capture_is_last (st : tstate) : Prop :=
  forall pre t r, captures st = pre ++ [(t, r)] -> t = lastScreenshotTime st.

(** Nothing pending, the last capture at [lastScreenshotTime], and
    consecutive captures [SCREENSHOT_INTERVAL] apart. *)
Definition settled (st : tstate) : Prop :=
  inflight st = [] /\ last_capture_is_last st /\
  spaced SCREENSHOT_INTERVAL (captures st) = true.

Lemma settled_snoc (st : tstate) (t : Z) (r : string) (h : string) :
  settled st -> SCREENSHOT_INTERVAL <= t - lastScreenshotTime st ->
  settled (mkTState t h (captures st ++ [(t, r)]) []).
Proof.
  intros (Hi & Hl & Hs) Hgap. split; [reflexivity|]. split.
  - intros pre t' r' Hc. simpl in Hc |- *.
    apply app_inj_tail in Hc as [_ Hc]. congruence.
  - simpl. apply spaced_snoc; [exact Hs|].
    intros pre t0 r0 Hc. rewrite (Hl pre t0 r0 Hc). exact Hgap.
Qed.

Lemma completing_step (st : tstate) (m : tmsg) :
  settled st ->
  settled (fold_left tstep (match m with
                            | Tick now hidden => [Tick now hidden; PeriodicDone 0]
                            | _ => [m]
                            end) st).
Proof.
  intros Hst0. pose proof Hst0 as (Hi & Hl & Hs).
  destruct m as [now hidden | i | now h]; simpl.
  - unfold periodic_tick. destruct hidden.
    + unfold periodic_done. rewrite Hi. exact Hst0.
    + destruct (Z.ltb_spec (now - lastScreenshotTime st) SCREENSHOT_INTERVAL).
      * unfold periodic_done. rewrite Hi. exact Hst0.
      * unfold periodic_done. simpl. rewrite Hi. simpl.
        apply settled_snoc; [exact Hst0 | lia].
  - unfold periodic_done. rewrite Hi. destruct i; exact Hst0.
  - unfold debounce_fire, canTakeScreenshot.
    destruct (negb (String.eqb h (lastDOMHash st))); simpl; [|exact Hst0].
    destruct (Z.geb_spec (now - lastScreenshotTime st) MIN_SCREENSHOT_INTERVAL);
      [|exact Hst0].
    rewrite Hi. apply settled_snoc; [exact Hst0|].
    unfold SCREENSHOT_INTERVAL; unfold MIN_SCREENSHOT_INTERVAL in *; lia.
Qed.

Lemma completing_settled (ms : list tmsg) (st : tstate) :
  settled st -> settled (trun (completing ms) st).
Proof.
  unfold trun, completing. revert st.
  induction ms as [|m ms IH]; intros st Hst; [exact Hst|].
  cbn [flat_map]. rewrite fold_left_app. apply IH. apply completing_step. exact Hst.
Qed.

(** C9 (corrected): the hard floor [MIN_SCREENSHOT_INTERVAL] only gates
    the content-change path. A debounced callback captures only when the
    content hash differs from [lastDOMHash] and at least
    [MIN_SCREENSHOT_INTERVAL] has passed since [lastScreenshotTime], and
    moves [lastScreenshotTime] to its time; a timer tick captures only
    when the page is visible and at least [SCREENSHOT_INTERVAL] has
    passed, without the floor or the hash test, and leaves
    [lastScreenshotTime] alone until its [captureScreenshot] call has
    completed, when the tick time is written. Over any run starting with
    no capture in which every periodic capture completes before the next
    callback, consecutive captures are at least [SCREENSHOT_INTERVAL]
    apart (and can be that close). *)
Theorem capture_gates_per_path :
  (forall now hidden st,
     periodic_tick now hidden st = st \/
     (hidden = false /\ SCREENSHOT_INTERVAL <= now - lastScreenshotTime st /\
      periodic_tick now hidden st
        = mkTState (lastScreenshotTime st) (lastDOMHash st)
            (captures st ++ [(now, "periodic")]) (inflight st ++ [now]))) /\
  (forall reason now currentHash st,
     debounce_fire reason now currentHash st = st \/
     (currentHash <> lastDOMHash st /\
      MIN_SCREENSHOT_INTERVAL <= now - lastScreenshotTime st /\
      debounce_fire reason now currentHash st
        = mkTState now currentHash (captures st ++ [(now, reason)]) (inflight st))) /\
  (forall ms t0 h0,
     spaced SCREENSHOT_INTERVAL
       (captures (trun (completing ms) (mkTState t0 h0 [] []))) = true).
Proof.
  split; [|split].
  - intros now hidden st. unfold periodic_tick.
    destruct hidden; [left; reflexivity|].
    destruct (Z.ltb_spec (now - lastScreenshotTime st) SCREENSHOT_INTERVAL);
      [left; reflexivity|].
    right. repeat split; auto; lia.
  - intros reason now h st. unfold debounce_fire, canTakeScreenshot.
    destruct (String.eqb_spec h (lastDOMHash st)) as [Hh|Hh]; simpl; [left; reflexivity|].
    destruct (Z.geb_spec (now - lastScreenshotTime st) MIN_SCREENSHOT_INTERVAL);
      [|left; reflexivity].
    right. repeat split; auto; lia.
  - intros ms t0 h0. apply completing_settled.
    split; [reflexivity|]. split; [|reflexivity].
    intros pre t r Hc. simpl in Hc. destruct pre; discriminate.
Qed.

(** C9: two timer ticks one second apart capture twice, and a
    content-change capture can be followed by a periodic one after one
    second, even when each periodic capture completes at once; both
    pairs are closer than [MIN_SCREENSHOT_INTERVAL]. While a periodic
    capture is pending, a content-change capture 500 ms after it passes
    both of its gates. *)
Lemma periodic_captures_within_floor :
  captures (trun (completing [Tick 1000 false; Tick 2000 false]) (mkTState 0 "h0" [] []))
    = [(1000, "periodic"); (2000, "periodic")] /\
  captures (trun (completing [DebounceFire 2000 "h1"; Tick 3000 false])
              (mkTState 0 "h0" [] []))
    = [(2000, "content_change"); (3000, "periodic")] /\
  2000 - 1000 < MIN_SCREENSHOT_INTERVAL /\ 3000 - 2000 < MIN_SCREENSHOT_INTERVAL /\
  captures (trun [Tick 3000 false; DebounceFire 3500 "h1"; PeriodicDone 0]
              (mkTState 0 "h0" [] []))
    = [(3000, "periodic"); (3500, "content_change")] /\
  3500 - 3000 < SCREENSHOT_INTERVAL.
Proof. vm_compute. repeat split; reflexivity. Qed.

End ThrottleFacts.

Module DescribeFacts.
Import DescribeWorker.

Lemma append_same_length_inv (a b x y : string) :
  String.length a = String.length b -> a +:+ x = b +:+ y -> a = b.
Proof.
  revert b. induction a as [|c a IH]; intros [|c' b] Hl Heq;
    simpl in *; try discriminate; [reflexivity|].
  injection Heq as -> Heq. f_equal. apply IH; [lia | exact Heq].
Qed.

(** Ids of a fixed length (those of [crypto.randomUUID()] have 36
    characters) are recovered from the cache key. *)
Lemma cacheKey_id (n : nat) (r1 r2 : request) :
  String.length (req_id r1) = n -> String.length (req_id r2) = n ->
  cacheKey r1 = cacheKey r2 -> req_id r1 = req_id r2.
Proof.
  intros H1 H2. unfold cacheKey. apply append_same_length_inv. congruence.
Qed.

(** Without a fixed id length, different ids can share a key. *)
Lemma cacheKey_collision :
  cacheKey (mkRequest "a" "b-c") = cacheKey (mkRequest "a-b" "c").
Proof. reflexivity. Qed.

Lemma on_describe_keys (infer : string -> string) (cache : Cache.jsmap response)
    (seen : list request) (r : request) :
  (forall k, In k (map fst cache) -> exists x, In x seen /\ cacheKey x = k) ->
  forall k, In k (map fst (snd (on_describe infer cache r))) ->
  exists x, In x (seen ++ [r]) /\ cacheKey x = k.
Proof.
  intros Hc k. unfold on_describe.
  destruct (Cache.map_get (cacheKey r) cache); simpl.
  - intros Hk. destruct (Hc k Hk) as (x & Hx & Hxk).
    exists x. split; [apply in_or_app; left|]; assumption.
  - intros [-> | Hk]%CacheFacts.cache_set_keys.
    + exists r. split; [apply in_or_app; right; left|]; reflexivity.
    + destruct (Hc k Hk) as (x & Hx & Hxk).
      exists x. split; [apply in_or_app; left|]; assumption.
Qed.

Lemma on_describe_hit (infer : string -> string) (cache : Cache.jsmap response)
    (r : request) (resp : response) :
  fst (on_describe infer cache r) = (true, resp) -> In (cacheKey r) (map fst cache).
Proof.
  unfold on_describe.
  destruct (Cache.map_get (cacheKey r) cache) eqn:Hg; simpl; [|discriminate].
  intros _. exact (CacheFacts.map_get_In _ _ _ Hg).
Qed.

Lemma serve_hit_seen (infer : string -> string) (rs : list request)
    (cache : Cache.jsmap response) (seen : list request) (i : nat)
    (r : request) (resp : response) :
  (forall k, In k (map fst cache) -> exists x, In x seen /\ cacheKey x = k) ->
  nth_error rs i = Some r ->
  nth_error (serve infer rs cache) i = Some (true, resp) ->
  exists x, In x (seen ++ firstn i rs) /\ cacheKey x = cacheKey r.
Proof.
  revert cache seen i.
  induction rs as [|r0 rs IH]; intros cache seen i Hc Hr Ho; [destruct i; discriminate|].
  pose proof (on_describe_keys infer cache seen r0 Hc) as Hc'.
  pose proof (on_describe_hit infer cache r0 resp) as Hhit.
  simpl in Ho. destruct (on_describe infer cache r0) as [o cache'] eqn:Hd.
  simpl in Hc', Hhit. destruct i as [|i]; simpl in Hr, Ho.
  - injection Hr as <-. injection Ho as ->.
    destruct (Hc _ (Hhit eq_refl)) as (x & Hx & Hk).
    exists x. rewrite app_nil_r. auto.
  - destruct (IH cache' (seen ++ [r0]) i Hc' Hr Ho) as (x & Hx & Hk).
    exists x. split; [|exact Hk]. rewrite <- app_assoc in Hx. exact Hx.
Qed.

(** C10 (confirmed): in the cached [describe] handler, the key is the
    request id, a dash and the first 100 characters of the image.  When
    every id has the length of a [crypto.randomUUID()] (36 characters),
    a request [r] at position [i] of a worker's life is answered from the
    cache only if an earlier request carried the same id: a fresh id
    always misses, whatever image it carries. *)
Theorem describe_cache_hit_needs_same_id (infer : string -> string)
    (rs : list request) (i : nat) (r : request) (resp : response) :
  (forall x, In x rs -> String.length (req_id x) = 36%nat) ->
  nth_error rs i = Some r ->
  nth_error (serve infer rs []) i = Some (true, resp) ->
  In (req_id r) (map req_id (firstn i rs)).
Proof.
  intros Hlen Hr Ho.
  destruct (serve_hit_seen infer rs [] [] i r resp ltac:(simpl; tauto) Hr Ho)
    as (x & Hx & Hk).
  simpl in Hx.
  assert (Hin : In x rs) by (rewrite <- (firstn_skipn i rs); apply in_or_app; left; exact Hx).
  assert (Hrin : In r rs) by exact (nth_error_In rs i Hr).
  rewrite <- (cacheKey_id 36 x r (Hlen x Hin) (Hlen r Hrin) Hk).
  apply in_map. exact Hx.
Qed.

Lemma describe_cache_hit_needs_same_id_witness :
  let rs := [mkRequest "123e4567-e89b-12d3-a456-426614174000" "iVBOR";
             mkRequest "123e4567-e89b-12d3-a456-426614174000" "iVBOR"] in
  (forall x, In x rs -> String.length (req_id x) = 36%nat) /\
  nth_error rs 1 = Some (mkRequest "123e4567-e89b-12d3-a456-426614174000" "iVBOR") /\
  nth_error (serve (fun s => s) rs []) 1
    = Some (true, mkResponse "123e4567-e89b-12d3-a456-426614174000" "iVBOR") /\
  In "123e4567-e89b-12d3-a456-426614174000" (map req_id (firstn 1 rs)).
Proof.
  intros rs.
  assert (Hlen : forall x, In x rs -> String.length (req_id x) = 36%nat).
  { intros x Hx. simpl in Hx. intuition subst; reflexivity. }
  split; [exact Hlen|]. split; [reflexivity|]. split; [reflexivity|].
  exact (describe_cache_hit_needs_same_id (fun s => s) rs 1
           (mkRequest "123e4567-e89b-12d3-a456-426614174000" "iVBOR")
           (mkResponse "123e4567-e89b-12d3-a456-426614174000" "iVBOR")
           Hlen eq_refl eq_refl).
Defined.

End DescribeFacts.

(* ================================================================== *)
(** * Further properties of the modelled code *)

Module CacheMore.
Import Cache.

Section Entries.
Context {V : Type}.

Lemma map_get_set_same (k : string) (v : V) (m : jsmap V) :
  map_get k (map_set k v m) = Some v.
Proof.
  induction m as [|[k' v'] m IH]; simpl; [rewrite String.eqb_refl; reflexivity|].
  destruct (String.eqb_spec k k') as [-> | Hne]; simpl.
  - rewrite String.eqb_refl. reflexivity.
  - destruct (String.eqb_spec k k'); [contradiction | exact IH].
Qed.

Lemma map_get_set_other (k k' : string) (v : V) (m : jsmap V) :
  k' <> k -> map_get k' (map_set k v m) = map_get k' m.
Proof.
  intros Hne. induction m as [|[k1 v1] m IH]; simpl.
  - destruct (String.eqb_spec k' k); [contradiction | reflexivity].
  - destruct (String.eqb_spec k k1) as [-> | Hk]; simpl.
    + destruct (String.eqb_spec k' k1); [contradiction | reflexivity].
    + destruct (String.eqb k' k1); [reflexivity | exact IH].
Qed.

Lemma map_set_keys_present (k : string) (v : V) (m : jsmap V) :
  In k (map fst m) -> map fst (map_set k v m) = map fst m.
Proof.
  induction m as [|[k1 v1] m IH]; simpl; [tauto|].
  intros Hin. destruct (String.eqb_spec k k1) as [-> | Hne]; simpl; [reflexivity|].
  rewrite IH; [reflexivity|]. destruct Hin; [congruence | assumption].
Qed.

Lemma map_get_snoc (k k' : string) (v : V) (m : jsmap V) :
  map_get k' (m ++ [(k, v)]) =
    match map_get k' m with
    | Some x => Some x
    | None => if String.eqb k' k then Some v else None
    end.
Proof.
  induction m as [|[k1 v1] m IH]; simpl; [reflexivity|].
  destruct (String.eqb k' k1); [reflexivity | exact IH].
Qed.

Lemma map_set_nodup (k : string) (v : V) (m : jsmap V) :
  List.NoDup (map fst m) -> List.NoDup (map fst (map_set k v m)).
Proof.
  intros Hnd. destruct (in_dec String.string_dec k (map fst m)) as [Hin | Hn].
  - rewrite map_set_keys_present by exact Hin. exact Hnd.
  - rewrite CacheFacts.map_set_fresh by exact Hn. rewrite map_app. simpl.
    apply List.NoDup_app; [exact Hnd | repeat constructor; simpl; tauto |].
    intros x Hx [<- | []]. exact (Hn Hx).
Qed.

Lemma cache_set_nodup (K : nat) (k : string) (v : V) (m : jsmap V) :
  List.NoDup (map fst m) -> List.NoDup (map fst (cache_set K k v m)).
Proof.
  intros Hnd. pose proof (map_set_nodup k v m Hnd) as Hs. unfold cache_set.
  destruct (K <? length (map_set k v m))%nat; [|exact Hs].
  destruct (map_set k v m) as [|[k0 v0] m'] eqn:Heq; [exact Hs|].
  rewrite CacheFacts.map_delete_head. simpl in Hs. inversion Hs. assumption.
Qed.

End Entries.

Lemma cache_set_get_self (K : nat) (k : string) {V : Type} (v : V) (m : jsmap V) :
  (1 <= K)%nat -> (length m <= K)%nat -> map_get k (cache_set K k v m) = Some v.
Proof.
  intros HK Hm. unfold cache_set.
  destruct (in_dec String.string_dec k (map fst m)) as [Hin | Hn].
  - assert (Hl : length (map_set k v m) = length m).
    { rewrite <- (length_map fst (map_set k v m)), <- (length_map fst m).
      rewrite map_set_keys_present by exact Hin. reflexivity. }
    rewrite Hl. destruct (Nat.ltb_spec K (length m)) as [Hlt | _]; [lia|].
    apply map_get_set_same.
  - rewrite CacheFacts.map_set_fresh by exact Hn. rewrite length_app. simpl.
    destruct (Nat.ltb_spec K (length m + 1)) as [Hlt | _].
    + destruct m as [|[k0 v0] m']; simpl in Hlt; [lia|].
      simpl. rewrite String.eqb_refl.
      rewrite map_get_snoc, CacheFacts.map_get_absent, String.eqb_refl; [reflexivity|].
      simpl in Hn. tauto.
    + rewrite map_get_snoc, CacheFacts.map_get_absent, String.eqb_refl by exact Hn.
      reflexivity.
Qed.

(** X1: after [cache.set(k, v)] with eviction, a lookup of [k] returns
    [v], provided the capacity is at least one and the cache was within
    capacity. *)
Theorem cache_set_then_get (K : nat) (k : string) {V : Type} (v : V) (m : jsmap V) :
  (1 <= K)%nat -> (length m <= K)%nat -> map_get k (cache_set K k v m) = Some v.
Proof.
  exact (cache_set_get_self K k v m).
Qed.

Lemma cache_set_then_get_witness :
  (1 <= 2)%nat /\ (length [("a", 1%nat); ("b", 2%nat)] <= 2)%nat /\
  map_get "c" (cache_set 2 "c" 3%nat [("a", 1%nat); ("b", 2%nat)]) = Some 3%nat.
Proof.
  split; [lia|]. split; [simpl; lia|].
  apply cache_set_then_get; simpl; lia.
Defined.

(** X2: with distinct keys, [cache.set(k, v)] leaves the entry of every
    other key unchanged, except that the oldest entry may be evicted. *)
Theorem cache_set_frame (K : nat) (k k' : string) {V : Type} (v : V) (m : jsmap V) :
  k' <> k -> List.NoDup (map fst m) ->
  map_get k' (cache_set K k v m) = map_get k' m \/
  (exists v0 m0, m = (k', v0) :: m0 /\ map_get k' (cache_set K k v m) = None).
Proof.
  intros Hne Hnd. unfold cache_set.
  destruct (in_dec String.string_dec k (map fst m)) as [Hin | Hn].
  - assert (Hl : length (map_set k v m) = length m).
    { rewrite <- (length_map fst (map_set k v m)), <- (length_map fst m).
      rewrite map_set_keys_present by exact Hin. reflexivity. }
    destruct (K <? length (map_set k v m))%nat.
    + destruct m as [|[k0 v0] m']; [destruct Hin|].
      simpl. destruct (String.eqb_spec k k0) as [-> | Hk]; simpl; rewrite String.eqb_refl.
      * destruct (String.eqb_spec k' k0) as [-> | Hk']; [contradiction|].
        left. simpl in Hnd. inversion Hnd; subst.
        destruct (String.eqb_spec k' k0); [contradiction | reflexivity].
      * destruct (String.eqb_spec k' k0) as [-> | Hk'].
        -- right. exists v0, m'. split; [reflexivity|].
           apply CacheFacts.map_get_absent. inversion Hnd; subst.
           intros Hx. apply CacheFacts.map_set_keys in Hx as [-> | Hx]; [congruence|].
           contradiction.
        -- left. rewrite map_get_set_other by exact Hne. reflexivity.
    + left. apply map_get_set_other. exact Hne.
  - rewrite CacheFacts.map_set_fresh by exact Hn.
    destruct (K <? length (m ++ [(k, v)]))%nat.
    + destruct m as [|[k0 v0] m']; simpl.
      * rewrite String.eqb_refl. left. reflexivity.
      * rewrite String.eqb_refl, map_get_snoc.
        destruct (String.eqb_spec k' k0) as [-> | Hk'].
        -- right. exists v0, m'. split; [reflexivity|].
           simpl in Hnd. inversion Hnd; subst.
           rewrite CacheFacts.map_get_absent by assumption.
           destruct (String.eqb_spec k0 k); [contradiction | reflexivity].
        -- left. destruct (map_get k' m'); [reflexivity|].
           destruct (String.eqb_spec k' k); [contradiction | reflexivity].
    + left. rewrite map_get_snoc. destruct (map_get k' m); [reflexivity|].
      destruct (String.eqb_spec k' k); [contradiction | reflexivity].
Qed.

Lemma cache_set_frame_witness :
  "b" <> "c" /\ List.NoDup (map fst [("a", 1%nat); ("b", 2%nat)]) /\
  (map_get "b" (cache_set 2 "c" 3%nat [("a", 1%nat); ("b", 2%nat)])
     = map_get "b" [("a", 1%nat); ("b", 2%nat)] \/
   (exists v0 m0, [("a", 1%nat); ("b", 2%nat)] = ("b", v0) :: m0 /\
      map_get "b" (cache_set 2 "c" 3%nat [("a", 1%nat); ("b", 2%nat)]) = None)).
Proof.
  assert (Hne : "b" <> "c") by discriminate.
  assert (Hnd : List.NoDup (map fst [("a", 1%nat); ("b", 2%nat)])).
  { simpl. repeat constructor; simpl; intuition discriminate. }
  split; [exact Hne|]. split; [exact Hnd|].
  exact (cache_set_frame 2 "c" "b" 3%nat [("a", 1%nat); ("b", 2%nat)] Hne Hnd).
Defined.

(** X3: setting a key already in a cache within capacity replaces its
    value in place: no entry is evicted and the insertion order is kept
    (the entry is not moved to the most recent position). *)
Theorem cache_set_existing_key (K : nat) (k : string) {V : Type} (v : V) (m : jsmap V) :
  In k (map fst m) -> (length m <= K)%nat ->
  map fst (cache_set K k v m) = map fst m /\ map_get k (cache_set K k v m) = Some v.
Proof.
  intros Hin Hm. unfold cache_set.
  assert (Hl : length (map_set k v m) = length m).
  { rewrite <- (length_map fst (map_set k v m)), <- (length_map fst m).
    rewrite map_set_keys_present by exact Hin. reflexivity. }
  rewrite Hl. destruct (Nat.ltb_spec K (length m)) as [Hlt | _]; [lia|].
  split; [apply map_set_keys_present; exact Hin | apply map_get_set_same].
Qed.

Lemma cache_set_existing_key_witness :
  In "a" (map fst [("a", 1%nat); ("b", 2%nat)]) /\
  (length [("a", 1%nat); ("b", 2%nat)] <= 2)%nat /\
  map fst (cache_set 2 "a" 5%nat [("a", 1%nat); ("b", 2%nat)]) = ["a"; "b"] /\
  map_get "a" (cache_set 2 "a" 5%nat [("a", 1%nat); ("b", 2%nat)]) = Some 5%nat.
Proof.
  assert (Hin : In "a" (map fst [("a", 1%nat); ("b", 2%nat)])) by (simpl; auto).
  assert (Hl : (length [("a", 1%nat); ("b", 2%nat)] <= 2)%nat) by (simpl; lia).
  split; [exact Hin|]. split; [exact Hl|].
  exact (cache_set_existing_key 2 "a" 5%nat [("a", 1%nat); ("b", 2%nat)] Hin Hl).
Defined.

(** X4: any sequence of reads and writes keeps a cache that starts with
    distinct keys and at most [K] entries that way. *)
Theorem cache_run_invariant (K : nat) {V : Type} (tr : list (op V)) (m : jsmap V) :
  List.NoDup (map fst m) -> (length m <= K)%nat ->
  List.NoDup (map fst (cache_run K tr m)) /\ (length (cache_run K tr m) <= K)%nat.
Proof.
  unfold cache_run. revert m.
  induction tr as [|[k | k v] tr IH]; intros m Hnd Hm; simpl; [auto | apply IH; auto|].
  apply IH; [apply cache_set_nodup; exact Hnd | apply CacheFacts.cache_set_bounded; exact Hm].
Qed.

Lemma cache_run_invariant_witness :
  List.NoDup (map fst (@nil (string * nat))) /\ (length (@nil (string * nat)) <= 1)%nat /\
  List.NoDup (map fst (cache_run 1 [CacheSet "a" 1%nat; CacheSet "b" 2%nat] [])) /\
  (length (cache_run 1 [CacheSet "a" 1%nat; CacheSet "b" 2%nat] []) <= 1)%nat.
Proof.
  assert (Hnd : List.NoDup (map fst (@nil (string * nat)))) by constructor.
  assert (Hl : (length (@nil (string * nat)) <= 1)%nat) by (simpl; lia).
  split; [exact Hnd|]. split; [exact Hl|].
  exact (cache_run_invariant 1 [CacheSet "a" 1%nat; CacheSet "b" 2%nat] [] Hnd Hl).
Defined.

End CacheMore.

Module DescribeMore.
Import DescribeWorker.

(** X6: once the worker has posted a response for a request, the same
    request (same id, same first 100 image characters) handled next is
    answered from [responseCache] with the very same response, without
    a second inference, as long as the cache held at most
    [VLM_CACHE_SIZE] entries. When the handler fails (the engine did not
    load or the inference threw), it posts an error reply with the
    request's id and leaves the cache unchanged. *)
Theorem describe_replay_hits (engine_ok : bool) (complete : string -> option string)
    (cache : Cache.jsmap response) (r : request) :
  (length cache <= VLM_CACHE_SIZE)%nat ->
  (forall resp, snd (fst (on_message engine_ok complete cache r)) = Posted resp ->
     fst (on_message engine_ok complete (snd (on_message engine_ok complete cache r)) r)
       = (true, Posted resp)) /\
  (forall id, snd (fst (on_message engine_ok complete cache r)) = PostedError id ->
     id = req_id r /\ snd (on_message engine_ok complete cache r) = cache).
Proof.
  intros Hl. unfold on_message.
  destruct engine_ok; [|split; [discriminate | intros id [= <-]; auto]].
  destruct (Cache.map_get (cacheKey r) cache) as [v|] eqn:Hg; simpl.
  - split; [intros resp [= <-]; rewrite Hg; reflexivity | discriminate].
  - destruct (complete (req_img r)) as [d|]; simpl.
    + split; [|discriminate]. intros resp [= <-].
      rewrite CacheMore.cache_set_get_self; [reflexivity | unfold VLM_CACHE_SIZE; lia | exact Hl].
    + split; [discriminate | intros id [= <-]; auto].
Qed.

Lemma describe_replay_hits_witness :
  (length (@nil (string * response)) <= VLM_CACHE_SIZE)%nat /\
  (forall resp,
     snd (fst (on_message true (fun s => Some s) [] (mkRequest "id" "img"))) = Posted resp ->
     fst (on_message true (fun s => Some s)
            (snd (on_message true (fun s => Some s) [] (mkRequest "id" "img")))
            (mkRequest "id" "img"))
       = (true, Posted resp)) /\
  (forall id,
     snd (fst (on_message false (fun s => Some s) [] (mkRequest "id" "img"))) = PostedError id ->
     id = "id" /\ snd (on_message false (fun s => Some s) [] (mkRequest "id" "img")) = []).
Proof.
  assert (Hl : (length (@nil (string * response)) <= VLM_CACHE_SIZE)%nat)
    by (vm_compute; lia).
  split; [exact Hl|]. split.
  - exact (proj1 (describe_replay_hits true (fun s => Some s) [] (mkRequest "id" "img") Hl)).
  - exact (proj2 (describe_replay_hits false (fun s => Some s) [] (mkRequest "id" "img") Hl)).
Defined.

End DescribeMore.

Module RouterMore.
Import Router.

(** The port of the latest request registering id [x], if any. *)
Definition last_registrant (x : string) (ms : list msg) : option nat :=
  fold_left (fun acc m =>
               match m with
               | PortMessage p _ _ => if registers x m then Some p else acc
               | WorkerMessage _ _ | PortDisconnect _ => acc
               end) ms None.

(** Port [p] sent a [describe] or [summarise] request with id [x]. *)
Definition requested (p : nat) (x : string) (ms : list msg) : Prop :=
  exists cmd, In (PortMessage p cmd x) ms /\ (cmd = "describe" \/ cmd = "summarise").

Lemma last_registrant_snoc (x : string) (ms : list msg) (m : msg) :
  last_registrant x (ms ++ [m]) =
    match m with
    | PortMessage p _ _ => if registers x m then Some p else last_registrant x ms
    | WorkerMessage _ _ | PortDisconnect _ => last_registrant x ms
    end.
Proof. unfold last_registrant. rewrite fold_left_app. reflexivity. Qed.

Lemma last_registrant_requested (x : string) (ms : list msg) (p : nat) :
  last_registrant x ms = Some p -> requested p x ms.
Proof.
  induction ms as [|m ms IH] using rev_ind; [discriminate|].
  rewrite last_registrant_snoc.
  assert (Hmono : requested p x ms -> requested p x (ms ++ [m])).
  { intros (cmd & Hin & Hc). exists cmd. split; [apply in_or_app; left; exact Hin | exact Hc]. }
  destruct m as [p' cmd id | w d | p']; [|intros H; exact (Hmono (IH H))..].
  destruct (registers x (PortMessage p' cmd id)) eqn:Hr; [|intros H; exact (Hmono (IH H))].
  intros [= ->]. simpl in Hr. apply andb_true_iff in Hr as [Hid Hc].
  apply String.eqb_eq in Hid as ->.
  exists cmd. split; [apply in_or_app; right; left; reflexivity|].
  apply orb_true_iff in Hc as [Hc | Hc]; apply String.eqb_eq in Hc; auto.
Qed.

Lemma rrun_snoc (ms : list msg) (m : msg) (st : rstate) :
  rrun (ms ++ [m]) st = rstep (rrun ms st) m.
Proof. unfold rrun. rewrite fold_left_app. reflexivity. Qed.

(** X7: in any run of the offscreen controller from its initial state,
    a worker reply is only ever posted to a port that sent a [describe]
    or [summarise] request carrying the reply's id; the pending entry of
    an id always names the port of the latest such request (a later
    request with the same id takes the reply away from an earlier one);
    and a request is forwarded only to its worker, [describe] to the VLM
    worker and [summarise] to the summarizer. *)
Theorem router_routes_to_requester (ms : list msg) :
  (forall p d, In (p, d) (delivered (rrun ms rinit)) -> requested p (rid d) ms) /\
  (forall x p, pending (rrun ms rinit) !! x = Some p -> last_registrant x ms = Some p) /\
  (forall w id, In (w, id) (forwarded (rrun ms rinit)) ->
     (w = "vlm" /\ exists p, In (PortMessage p "describe" id) ms) \/
     (w = "sum" /\ exists p, In (PortMessage p "summarise" id) ms)).
Proof.
  induction ms as [|m ms IH] using rev_ind.
  - split; [intros p d []|]. split; [|intros w id []].
    intros x p H. simpl in H. rewrite lookup_empty in H. discriminate.
  - destruct IH as (Hd & Hp & Hf). rewrite rrun_snoc.
    assert (Hreq : forall p x, requested p x ms -> requested p x (ms ++ [m])).
    { intros p x (cmd & Hin & Hc). exists cmd. split; [apply in_or_app; left|]; assumption. }
    assert (Hin1 : forall n c i, In (PortMessage n c i) ms ->
                     In (PortMessage n c i) (ms ++ [m])).
    { intros n c i H. apply in_or_app. left. exact H. }
    destruct m as [p cmd id | w d | p0]; simpl.
    + unfold onPortMessage.
      assert (Hlast : forall x, x <> id ->
                last_registrant x (ms ++ [PortMessage p cmd id]) = last_registrant x ms).
      { intros x Hx. rewrite last_registrant_snoc. simpl.
        destruct (String.eqb_spec id x); [congruence | reflexivity]. }
      destruct (String.eqb_spec cmd "describe") as [-> | Hd1];
        [|destruct (String.eqb_spec cmd "summarise") as [-> | Hs1]]; simpl.
      * split; [intros p' d' H; exact (Hreq _ _ (Hd p' d' H))|]. split.
        -- intros x p' H. destruct (String.eqb_spec x id) as [-> | Hx].
           ++ rewrite lookup_insert_eq in H. injection H as <-.
              rewrite last_registrant_snoc. simpl. rewrite String.eqb_refl. reflexivity.
           ++ rewrite lookup_insert_ne in H by congruence. rewrite Hlast by exact Hx.
              exact (Hp x p' H).
        -- intros w i [H | [[= <- <-] | []]]%in_app_or.
           ++ destruct (Hf w i H) as [[-> (p' & Hx)] | [-> (p' & Hx)]];
                [left | right]; split; auto; exists p'; apply Hin1; exact Hx.
           ++ left. split; [reflexivity|]. exists p. apply in_or_app. right. left. reflexivity.
      * split; [intros p' d' H; exact (Hreq _ _ (Hd p' d' H))|]. split.
        -- intros x p' H. destruct (String.eqb_spec x id) as [-> | Hx].
           ++ rewrite lookup_insert_eq in H. injection H as <-.
              rewrite last_registrant_snoc. simpl. rewrite String.eqb_refl. reflexivity.
           ++ rewrite lookup_insert_ne in H by congruence. rewrite Hlast by exact Hx.
              exact (Hp x p' H).
        -- intros w i [H | [[= <- <-] | []]]%in_app_or.
           ++ destruct (Hf w i H) as [[-> (p' & Hx)] | [-> (p' & Hx)]];
                [left | right]; split; auto; exists p'; apply Hin1; exact Hx.
           ++ right. split; [reflexivity|]. exists p. apply in_or_app. right. left. reflexivity.
      * split; [intros p' d' H; exact (Hreq _ _ (Hd p' d' H))|]. split.
        -- intros x p' H. rewrite last_registrant_snoc. simpl.
           destruct (String.eqb_spec cmd "describe"); [contradiction|].
           destruct (String.eqb_spec cmd "summarise"); [contradiction|].
           rewrite andb_false_r. exact (Hp x p' H).
        -- intros w i H. destruct (Hf w i H) as [[-> (p' & Hx)] | [-> (p' & Hx)]];
             [left | right]; split; auto; exists p'; apply Hin1; exact Hx.
    + unfold routeResponse.
      destruct (pending (rrun ms rinit) !! rid d) as [p|] eqn:Hpd; simpl;
        [destruct (existsb (Nat.eqb p) (disconnected (rrun ms rinit)))|].
      * split; [intros p' d' H; exact (Hreq _ _ (Hd p' d' H))|]. split.
        -- intros x p' H. rewrite last_registrant_snoc. exact (Hp x p' H).
        -- intros w' i H. destruct (Hf w' i H) as [[-> (p' & Hx)] | [-> (p' & Hx)]];
             [left | right]; split; auto; exists p'; apply Hin1; exact Hx.
      * split.
        -- intros p' d' H. simpl in H. destruct (in_app_or _ _ _ H) as [H' | [[= <- <-] | []]].
           ++ exact (Hreq _ _ (Hd p' d' H')).
           ++ apply Hreq. apply last_registrant_requested. exact (Hp _ _ Hpd).
        -- split.
           ++ intros x p' H. simpl in H. rewrite last_registrant_snoc.
              destruct (String.eqb_spec x (rid d)) as [-> | Hx].
              ** rewrite lookup_delete_eq in H. discriminate.
              ** rewrite lookup_delete_ne in H by congruence. exact (Hp x p' H).
           ++ intros w' i H. destruct (Hf w' i H) as [[-> (p' & Hx)] | [-> (p' & Hx)]];
                [left | right]; split; auto; exists p'; apply Hin1; exact Hx.
      * split; [intros p' d' H; exact (Hreq _ _ (Hd p' d' H))|]. split.
        -- intros x p' H. rewrite last_registrant_snoc. exact (Hp x p' H).
        -- intros w' i H. destruct (Hf w' i H) as [[-> (p' & Hx)] | [-> (p' & Hx)]];
             [left | right]; split; auto; exists p'; apply Hin1; exact Hx.
    + split; [intros p' d' H; exact (Hreq _ _ (Hd p' d' H))|]. split.
      * intros x p' H. rewrite last_registrant_snoc. exact (Hp x p' H).
      * intros w' i H. destruct (Hf w' i H) as [[-> (p' & Hx)] | [-> (p' & Hx)]];
          [left | right]; split; auto; exists p'; apply Hin1; exact Hx.
Qed.

End RouterMore.

Module PageHashFacts.
Import PageHash.

Lemma toInt32_shift (z : Z) : exists j, toInt32 z = z + j * 2 ^ 32.
Proof.
  unfold toInt32. pose proof (Z.div_mod z (2 ^ 32) ltac:(lia)) as Hd.
  destruct (2 ^ 31 <=? z mod 2 ^ 32).
  - exists (- (z / 2 ^ 32) - 1). lia.
  - exists (- (z / 2 ^ 32)). lia.
Qed.

Lemma toInt32_add_mult (z j : Z) : toInt32 (z + j * 2 ^ 32) = toInt32 z.
Proof. unfold toInt32. rewrite Z.mod_add by lia. reflexivity. Qed.

Lemma toInt32_range (z : Z) : - 2 ^ 31 <= toInt32 z < 2 ^ 31.
Proof.
  unfold toInt32. pose proof (Z.mod_pos_bound z (2 ^ 32) ltac:(lia)).
  destruct (Z.leb_spec (2 ^ 31) (z mod 2 ^ 32)); lia.
Qed.

Lemma hash_step_poly (a c : Z) : hash_step (toInt32 a) c = toInt32 (31 * a + c).
Proof.
  unfold hash_step. rewrite Z.land_diag, Z.shiftl_mul_pow2 by lia.
  destruct (toInt32_shift a) as [j Hj].
  assert (Hid : toInt32 (toInt32 a) = toInt32 a).
  { rewrite Hj at 1. apply toInt32_add_mult. }
  rewrite Hid.
  destruct (toInt32_shift (toInt32 a * 2 ^ 5)) as [j' Hj'].
  rewrite Hj', Hj.
  replace ((a + j * 2 ^ 32) * 2 ^ 5 + j' * 2 ^ 32 - (a + j * 2 ^ 32) + c)
    with (31 * a + c + (31 * j + j') * 2 ^ 32) by ring.
  apply toInt32_add_mult.
Qed.

(** X8: the loop of [getPageContentHash] computes, in 32-bit signed
    arithmetic, the polynomial hash [sum c_i * 31^(n-1-i)] of the code
    units (the hash of Java's [String.hashCode]), and its result is
    always a signed 32-bit integer. *)
Theorem content_hash_is_poly_hash (codes : list Z) :
  content_hash codes = toInt32 (fold_left (fun a c => 31 * a + c) codes 0) /\
  - 2 ^ 31 <= content_hash codes < 2 ^ 31.
Proof.
  assert (H : forall a, fold_left hash_step codes (toInt32 a)
                        = toInt32 (fold_left (fun a c => 31 * a + c) codes a)).
  { induction codes as [|c codes IH]; intros a; [reflexivity|].
    simpl. rewrite hash_step_poly. apply IH. }
  assert (Hc : content_hash codes = toInt32 (fold_left (fun a c => 31 * a + c) codes 0))
    by exact (H 0).
  split; [exact Hc|]. rewrite Hc. apply toInt32_range.
Qed.

End PageHashFacts.

Module DebounceFacts.
Import Debounce.

(** The due times of the callbacks that get to run: one per signal not
    followed by another signal within [DEBOUNCE_MS]. *)
Fixpoint quiet_ends (ts : list Z) : list Z :=
  match ts with
  | [] => []
  | [t] => [t + DEBOUNCE_MS]
  | t :: ((t' :: _) as rest) =>
      if t + DEBOUNCE_MS <=? t' then (t + DEBOUNCE_MS) :: quiet_ends rest
      else quiet_ends rest
  end.

Lemma last_cons_default (x : Z) (l : list Z) (d d' : Z) :
  List.last (x :: l) d = List.last (x :: l) d'.
Proof.
  revert x. induction l as [|y l IH]; intros x; [reflexivity|].
  change (List.last (y :: l) d = List.last (y :: l) d'). apply IH.
Qed.

Lemma quiet_ends_cons2 (t t' : Z) (rest : list Z) :
  quiet_ends (t :: t' :: rest) =
    if t + DEBOUNCE_MS <=? t' then (t + DEBOUNCE_MS) :: quiet_ends (t' :: rest)
    else quiet_ends (t' :: rest).
Proof. reflexivity. Qed.

Lemma signal_scheduled (d : Z) (fs : list Z) (t : Z) :
  signal (mkDState (Some d) fs) t =
    mkDState (Some (t + DEBOUNCE_MS)) (if d <=? t then fs ++ [d] else fs).
Proof. unfold signal, run_due, check. simpl. destruct (d <=? t); reflexivity. Qed.

Lemma fold_signal (ts : list Z) (t0 : Z) (fs : list Z) :
  let st := fold_left signal ts (mkDState (Some (t0 + DEBOUNCE_MS)) fs) in
  match scheduled st with
  | Some d => fired st ++ [d]
  | None => fired st
  end = fs ++ quiet_ends (t0 :: ts).
Proof.
  revert t0 fs. induction ts as [|t ts IH]; intros t0 fs; [reflexivity|].
  cbn [fold_left]. rewrite signal_scheduled, quiet_ends_cons2.
  destruct (t0 + DEBOUNCE_MS <=? t).
  - rewrite IH, <- app_assoc. reflexivity.
  - apply IH.
Qed.

(** X9: after a series of significant mutations at times [ts], the
    debounced callback of [checkAndTakeScreenshot] runs once for every
    mutation not followed by another within [DEBOUNCE_MS], at that
    mutation's time plus [DEBOUNCE_MS]; in particular a burst whose
    mutations are less than [DEBOUNCE_MS] apart runs it exactly once,
    [DEBOUNCE_MS] after the last mutation. *)
Theorem debounce_runs_once_per_quiet_gap (ts : list Z) :
  settle ts = quiet_ends ts /\
  (forall t0 rest,
     ts = t0 :: rest ->
     Forall (fun gap => gap < DEBOUNCE_MS)
       (map (fun p => snd p - fst p) (combine ts rest)) ->
     settle ts = [List.last ts t0 + DEBOUNCE_MS]).
Proof.
  assert (Hs : settle ts = quiet_ends ts).
  { unfold settle. destruct ts as [|t ts]; [reflexivity|].
    cbn [fold_left].
    change (signal dinit t) with (mkDState (Some (t + DEBOUNCE_MS)) []).
    exact (fold_signal ts t []). }
  split; [exact Hs|]. intros t0 rest -> Hg. rewrite Hs. clear Hs.
  revert t0 Hg. induction rest as [|t1 rest IH]; intros t0 Hg; [reflexivity|].
  simpl in Hg. inversion Hg as [|g gs Hg0 Hgs]; subst. simpl in Hg0.
  rewrite quiet_ends_cons2. destruct (Z.leb_spec (t0 + DEBOUNCE_MS) t1); [lia|].
  rewrite (IH t1 Hgs). f_equal. f_equal.
  change (List.last (t0 :: t1 :: rest) t0) with (List.last (t1 :: rest) t0).
  apply last_cons_default.
Qed.

End DebounceFacts.

Module BackgroundMore.
Import Background.

(** An idle workflow is the reset object; an active one has a start and
    a last-event time, in order, not after [now]. *)
Definition wf_timed (now : Z) (w : workflow) : Prop :=
  match wtype w with
  | None => w = idle_workflow
  | Some _ => exists s l, startTime w = Some s /\ lastEventTime w = Some l /\ s <= l <= now
  end.

Definition active_has_steps (w : workflow) : Prop :=
  wtype w <> None -> steps w <> [].

(** A workflow record has at least one step and a non-negative duration. *)
Definition record_ok (it : qitem) : Prop :=
  match it with
  | Workflow r => wf_steps r <> [] /\ 0 <= duration r
  | Raw _ => True
  end.

Definition records_ok (st : state) : Prop :=
  Forall record_ok (queue st) /\
  Forall (fun w => Forall record_ok (events (snd w))) (writes st).

(** [t0 <=] the times of the inputs, which never decrease. *)
Fixpoint times_from (t0 : Z) (inputs : list (bool * Z * evt)) : Prop :=
  match inputs with
  | [] => True
  | (_, now, _) :: rest => t0 <= now /\ times_from now rest
  end.

Lemma wf_timed_mono (now now' : Z) (w : workflow) :
  wf_timed now w -> now <= now' -> wf_timed now' w.
Proof.
  unfold wf_timed. destruct (wtype w); [|auto].
  intros (s & l & Hs & Hl & H) Hn. exists s, l. repeat split; auto; lia.
Qed.

Lemma finish_ok (now : Z) (st : state) :
  wf_timed now (currentWorkflow st) -> records_ok st ->
  wf_timed now (currentWorkflow (finishWorkflow st)) /\ records_ok (finishWorkflow st).
Proof.
  destruct st as [q [wt tg ss t0 le] wr]. unfold finishWorkflow, wf_timed, records_ok.
  simpl. destruct wt as [t|]; [|auto]. destruct ss as [|s ss]; [auto|].
  intros (s0 & l & -> & -> & Hle) [Hq Hw]. simpl.
  split; [reflexivity|]. split; [|exact Hw].
  apply List.Forall_app. split; [exact Hq|].
  constructor; [|constructor]. simpl. split; [discriminate | lia].
Qed.

Lemma finish_active (st : state) :
  wtype (currentWorkflow st) <> None -> steps (currentWorkflow st) <> [] ->
  currentWorkflow (finishWorkflow st) = idle_workflow.
Proof.
  destruct st as [q [wt tg ss t0 le] wr]. unfold finishWorkflow. simpl.
  destruct wt as [t|]; [|tauto]. destruct ss; [tauto|]. reflexivity.
Qed.

Lemma start_loop_ok (now : Z) (e : evt) (ts : list wf_type) (st : state) :
  wf_timed now (currentWorkflow st) -> records_ok st ->
  wf_timed now (currentWorkflow (start_loop now e ts st)) /\
  records_ok (start_loop now e ts st).
Proof.
  revert st. induction ts as [|t ts IH]; intros st Hw Hr; simpl; [auto|].
  apply IH.
  - destruct (starts t e); [|exact Hw].
    assert (H1 : wf_timed now (currentWorkflow (if too_old now (currentWorkflow st)
                                                then finishWorkflow st else st))).
    { destruct (too_old now (currentWorkflow st));
        [exact (proj1 (finish_ok now st Hw Hr)) | exact Hw]. }
    destruct (wtype (currentWorkflow (if too_old now (currentWorkflow st)
                                      then finishWorkflow st else st))) eqn:Ht;
      [exact H1|].
    unfold wf_timed. simpl. exists now, now. repeat split; lia.
  - destruct (starts t e); [|exact Hr].
    assert (H1 : records_ok (if too_old now (currentWorkflow st)
                             then finishWorkflow st else st)).
    { destruct (too_old now (currentWorkflow st));
        [exact (proj2 (finish_ok now st Hw Hr)) | exact Hr]. }
    destruct (wtype (currentWorkflow (if too_old now (currentWorkflow st)
                                      then finishWorkflow st else st)));
      [exact H1 | exact H1].
Qed.

Lemma update_ok (now : Z) (e : evt) (st : state) :
  wf_timed now (currentWorkflow st) -> records_ok st ->
  wf_timed now (currentWorkflow (updateWorkflow now e st)) /\
  active_has_steps (currentWorkflow (updateWorkflow now e st)) /\
  records_ok (updateWorkflow now e st).
Proof.
  intros Hw Hr. unfold updateWorkflow.
  destruct (start_loop_ok now e pattern_entries st Hw Hr) as [Hw1 Hr1].
  remember (start_loop now e pattern_entries st) as st1 eqn:Hst1. clear Hst1.
  unfold wf_timed in Hw1.
  destruct (wtype (currentWorkflow st1)) as [t|] eqn:Ht.
  - destruct Hw1 as (s & l & Hs & Hl & Hle).
    set (st2 := set_workflow (mkWorkflow (Some t) (target (currentWorkflow st1))
                  (steps (currentWorkflow st1) ++ [step_of now e])
                  (startTime (currentWorkflow st1)) (Some now)) st1).
    assert (Hw2 : wf_timed now (currentWorkflow st2)).
    { unfold wf_timed. simpl. exists s, now. repeat split; auto; lia. }
    assert (Hs2 : steps (currentWorkflow st2) <> []).
    { simpl. intros H. apply app_eq_nil in H as [_ H]. discriminate. }
    assert (Hr2 : records_ok st2) by exact Hr1.
    destruct (includes (endTriggers (WORKFLOW_PATTERNS t)) (etype e)).
    + destruct (finish_ok now st2 Hw2 Hr2) as [Hw3 Hr3].
      split; [exact Hw3|]. split; [|exact Hr3].
      rewrite finish_active; [intros H; exfalso; apply H; reflexivity | simpl; discriminate | exact Hs2].
    + split; [exact Hw2|]. split; [intros _; exact Hs2 | exact Hr2].
  - split; [unfold wf_timed; rewrite Ht; exact Hw1|].
    split; [intros H; contradiction | exact Hr1].
Qed.

Lemma sanitize_ok (it : qitem) : record_ok it -> record_ok (sanitize it).
Proof. destruct it; simpl; auto. Qed.

Lemma flush_ok (sr : list qitem -> string) (ok : bool) (now : Z) (st : state) :
  wf_timed now (currentWorkflow st) -> active_has_steps (currentWorkflow st) ->
  records_ok st ->
  wf_timed now (currentWorkflow (flush_batch sr ok st)) /\
  active_has_steps (currentWorkflow (flush_batch sr ok st)) /\
  records_ok (flush_batch sr ok st).
Proof.
  intros Hw Ha Hr. destruct (finish_ok now st Hw Hr) as [Hw1 [Hq1 Hwr1]].
  unfold flush_batch. simpl.
  split; [exact Hw1|]. split.
  - destruct (wtype (currentWorkflow st)) eqn:Ht.
    + rewrite finish_active by (try apply Ha; congruence). intros H. contradiction.
    + rewrite BackgroundFacts.finish_idle by exact Ht. exact Ha.
  - split.
    + destruct ok; [constructor | exact Hq1].
    + apply List.Forall_app. split; [exact Hwr1|]. constructor; [|constructor].
      simpl. apply List.Forall_forall. intros it Hin.
      apply in_map_iff in Hin as (x & <- & Hx). apply sanitize_ok.
      exact (proj1 (List.Forall_forall _ _) Hq1 x Hx).
Qed.

Lemma handleEvent_ok (sr : list qitem -> string) (ok : bool) (now now' : Z)
    (st : state) (e0 : evt) :
  wf_timed now (currentWorkflow st) -> active_has_steps (currentWorkflow st) ->
  records_ok st -> now <= now' ->
  wf_timed now' (currentWorkflow (handleEvent sr ok now' st e0)) /\
  active_has_steps (currentWorkflow (handleEvent sr ok now' st e0)) /\
  records_ok (handleEvent sr ok now' st e0).
Proof.
  intros Hw Ha Hr Hn. unfold handleEvent.
  destruct (label_event e0) as [e|]; [|split; [exact (wf_timed_mono now now' _ Hw Hn) | auto]].
  destruct (update_ok now' e st (wf_timed_mono now now' _ Hw Hn) Hr) as (Hw1 & Ha1 & Hr1).
  set (st2 := set_queue (queue (updateWorkflow now' e st) ++ [Raw e])
                (updateWorkflow now' e st)).
  assert (Hr2 : records_ok st2).
  { destruct Hr1 as [Hq Hwr]. split; [|exact Hwr]. simpl.
    apply List.Forall_app. split; [exact Hq | constructor; [exact I | constructor]]. }
  destruct (flush_due (queue st2) e).
  - exact (flush_ok sr ok now' st2 Hw1 Ha1 Hr2).
  - split; [exact Hw1|]. split; [exact Ha1 | exact Hr2].
Qed.

Lemma run_ok (sr : list qitem -> string) (inputs : list (bool * Z * evt))
    (t0 : Z) (st : state) :
  wf_timed t0 (currentWorkflow st) -> active_has_steps (currentWorkflow st) ->
  records_ok st -> times_from t0 inputs ->
  active_has_steps (currentWorkflow (run sr inputs st)) /\ records_ok (run sr inputs st).
Proof.
  revert t0 st. induction inputs as [|[[ok now] e] rest IH]; intros t0 st Hw Ha Hr Ht;
    simpl; [auto|].
  destruct Ht as [Hn Ht].
  destruct (handleEvent_ok sr ok t0 now st e Hw Ha Hr Hn) as (Hw1 & Ha1 & Hr1).
  exact (IH now _ Hw1 Ha1 Hr1 Ht).
Qed.

(** X10: when the clock never goes backwards, every workflow record
    [finishWorkflow] ever appends to the queue, and so every record in
    any batch written to the store, has at least one step and a
    non-negative [duration]; and an active workflow always holds at
    least one step, so the [steps.length > 0] guard of
    [finishWorkflow] never discards an active workflow. *)
Theorem workflow_records_well_formed (sr : list qitem -> string)
    (inputs : list (bool * Z * evt)) (t0 : Z) :
  times_from t0 inputs ->
  Forall record_ok (queue (run sr inputs init_state)) /\
  Forall (fun w => Forall record_ok (events (snd w))) (writes (run sr inputs init_state)) /\
  (wtype (currentWorkflow (run sr inputs init_state)) <> None ->
   steps (currentWorkflow (run sr inputs init_state)) <> []).
Proof.
  intros Ht.
  assert (H0w : wf_timed t0 (currentWorkflow init_state)) by reflexivity.
  assert (H0a : active_has_steps (currentWorkflow init_state)) by (intros H; contradiction).
  assert (H0r : records_ok init_state) by (split; constructor).
  destruct (run_ok sr inputs t0 init_state H0w H0a H0r Ht) as [Ha [Hq Hw]].
  split; [exact Hq|]. split; [exact Hw | exact Ha].
Qed.

Lemma workflow_records_well_formed_witness :
  times_from 0 [(true, 0%Z, plain_evt "click" "input"); (true, 1000%Z, plain_evt "change" "input")] /\
  Forall record_ok (queue (run (fun _ => "")
    [(true, 0%Z, plain_evt "click" "input"); (true, 1000%Z, plain_evt "change" "input")]
    init_state)).
Proof.
  assert (Ht : times_from 0 [(true, 0%Z, plain_evt "click" "input");
                             (true, 1000%Z, plain_evt "change" "input")])
    by (simpl; lia).
  split; [exact Ht|].
  exact (proj1 (workflow_records_well_formed (fun _ => "")
    [(true, 0%Z, plain_evt "click" "input"); (true, 1000%Z, plain_evt "change" "input")]
    0 Ht)).
Defined.

End BackgroundMore.
